(** * DiceFlip: the search engine of the dice game, embedded and verified

    The program under study plays a two-player subtractive dice game.  A
    configuration records the face last turned to, the remaining total, the
    player to move and the winner.  The engine hashes configurations into a
    direct-indexed transposition table, generates the four legal successor
    configurations, and runs a depth-bounded negamax with table cut-offs.

    This file embeds those functions shallowly (fixed-width integers as [Z]
    with their wrap-around written out, the global table as a finite map read
    with default 0, the recursion on the search depth as structural
    recursion) and settles the properties the specification states. *)

From Stdlib Require Import ZArith List Lia Bool.
From stdpp Require Import gmap.

Local Open Scope Z_scope.

(** ** Fixed-width integers *)

(** Modelled from the spec: the header [types.h] that declares [int8],
    [uint8], [uint16] and [uint32] is not among the sources.  The spec speaks
    of one byte per field, a 16-bit packed record and a 32-bit key, so the
    names are read as the two's-complement fixed-width types they suggest.
    A conversion to such a type is reduction modulo its width. *)
Definition to_uint8 (z : Z) : Z := z mod 256.
Definition to_int8 (z : Z) : Z := (z + 128) mod 256 - 128.
Definition to_uint16 (z : Z) : Z := z mod 65536.
Definition to_uint32 (z : Z) : Z := z mod 4294967296.

Definition uint8_range (z : Z) : Prop := 0 <= z <= 255.
Definition int8_range (z : Z) : Prop := -128 <= z <= 127.

(** A C++ [bool] promoted to [int]. *)
Definition b2z (b : bool) : Z := if b then 1 else 0.

(** ** Data model *)

Definition NODE_TYPE_EXACT : Z := 1.
Definition NODE_TYPE_LOWER : Z := 2.
Definition NODE_TYPE_UPPER : Z := 3.

(** [struct _GameState], fields in declaration order: [lastMove] is a
    [uint8], the other three are [int8]. *)
Record GameState : Type := mkGameState {
  lastMove : Z;
  total : Z;
  activePlayer : Z;
  winner : Z
}.

(** The field values the C++ types allow. *)
Definition inType (s : GameState) : Prop :=
  uint8_range (lastMove s) /\ int8_range (total s) /\
  int8_range (activePlayer s) /\ int8_range (winner s).

(** ** State encoder *)

Definition hash (state : GameState) : Z :=
  let out := 0 in
  to_uint32
    (Z.lor (Z.lor (Z.lor (Z.lor out
       (to_uint8 (total state + 128)))
       (Z.shiftl (to_uint8 (activePlayer state + 128)) 8))
       (Z.shiftl (to_uint8 (winner state + 128)) 16))
       (Z.shiftl (lastMove state) 24)).

(** ** Transposition-table records *)

Definition makeTTVal (depth eval type : Z) : Z :=
  to_uint16
    (Z.lor (Z.lor (Z.shiftl (to_uint16 depth) 8)
                  (Z.shiftl (to_uint8 type) 6))
           (to_uint8 eval)).

(** The table is a [calloc]ed array of 2^32 [uint16] slots: a slot never
    written reads 0. *)
Definition slot (transpositionTable : gmap Z Z) (hashVal : Z) : Z :=
  default 0 (transpositionTable !! hashVal).

Definition getDepth (transpositionTable : gmap Z Z) (hashVal : Z) : Z :=
  to_uint8 (Z.shiftr (slot transpositionTable hashVal) 8).

Definition getRating (transpositionTable : gmap Z Z) (hashVal : Z) : Z :=
  to_int8 (Z.land (slot transpositionTable hashVal) 63).

Definition getNodeType (transpositionTable : gmap Z Z) (hashVal : Z) : Z :=
  to_uint8 (Z.land (Z.shiftr (slot transpositionTable hashVal) 6) 3).

(** ** Rule engine *)

Definition createGameState (lastMove player total : Z) : GameState :=
  mkGameState lastMove total player 0.

Definition performMove (state : GameState) (move : Z) : GameState :=
  let newTotal := to_int8 (total state - move) in
  mkGameState
    move
    (to_int8 newTotal)
    (to_int8 (- activePlayer state))
    (to_int8 (b2z (newTotal <=? 0) * (- activePlayer state))).

(** [getPossibleStates] fills the four slots of [out] in the order written
    here.  For a [lastMove] outside 1..6 the [switch] matches no case and
    writes nothing; both callers then read slots this call never wrote (an
    uninitialised local array in [miniMax], the previous contents of a static
    array in [makeBestMove]).  The model answers [None] there. *)
Definition getPossibleStates (lastState : GameState) : option (list GameState) :=
  match lastMove lastState with
  | 6 | 1 =>
      Some [performMove lastState 5; performMove lastState 4;
            performMove lastState 3; performMove lastState 2]
  | 5 | 2 =>
      Some [performMove lastState 6; performMove lastState 4;
            performMove lastState 3; performMove lastState 1]
  | 4 | 3 =>
      Some [performMove lastState 6; performMove lastState 5;
            performMove lastState 2; performMove lastState 1]
  | _ => None
  end.

Definition eval (state : GameState) : Z :=
  to_int8 (b2z (total state <=? 0) * winner state).

(** ** Search engine *)

(** What the search does to the outside world: it overwrites table slots and
    it returns values.  [trace] is ghost state, newest event first; no branch
    of the search reads it. *)
Inductive Event : Type :=
| EvStore (hashVal depth val type : Z)
| EvReturn (val : Z).

Record Mem : Type := mkMem {
  transpositionTable : gmap Z Z;
  trace : list Event
}.

(** The zero-initialised table of [main], before any search. *)
Definition freshMem : Mem := mkMem ∅ [].

(** [transpositionTable[hashVal] = makeTTVal(depth, val, type)]. *)
Definition store (m : Mem) (hashVal depth val type : Z) : Mem :=
  mkMem (<[hashVal := makeTTVal depth val type]> (transpositionTable m))
        (EvStore hashVal depth val type :: trace m).

Definition returning (val : Z) (m : Mem) : option (Z * Mem) :=
  Some (val, mkMem (transpositionTable m) (EvReturn val :: trace m)).

(** Outcome of the table lookup at the head of the child loop: leave
    [miniMax] with a value, or go on to search the child with a window. *)
Inductive Probe : Type :=
| ProbeReturn (val : Z)
| ProbeSearch (alpha beta : Z).

Definition probe (tt : gmap Z Z) (depth hashVal alpha beta max : Z) : Probe :=
  let ttDepth := getDepth tt hashVal in
  if (0 <? ttDepth) && (depth <=? ttDepth) then
    let eval := getRating tt hashVal in
    match getNodeType tt hashVal with
    | 2 (* NODE_TYPE_LOWER *) =>
        let alpha := if alpha <? eval then eval else alpha in
        if beta <=? alpha then ProbeReturn (if max <? eval then eval else max)
        else ProbeSearch alpha beta
    | 3 (* NODE_TYPE_UPPER *) =>
        let beta := if eval <? beta then eval else beta in
        if beta <=? alpha then ProbeReturn (if max <? eval then eval else max)
        else ProbeSearch alpha beta
    | 1 (* NODE_TYPE_EXACT *) => ProbeReturn eval
    | _ =>
        if beta <=? alpha then ProbeReturn (if max <? eval then eval else max)
        else ProbeSearch alpha beta
    end
  else ProbeSearch alpha beta.

(** The table update that follows the recursive call. *)
Definition record (m : Mem) (hashVal depth val alpha beta : Z) : Mem :=
  if val <=? alpha then store m hashVal depth val NODE_TYPE_UPPER
  else if beta <=? val then store m hashVal depth val NODE_TYPE_LOWER
  else store m hashVal depth val NODE_TYPE_EXACT.

Section ChildLoop.
(** [search] stands for [miniMax] at [depth - 1]. *)
Variable search : GameState -> Z -> Z -> Mem -> option (Z * Mem).
Variable depth : Z.

(** The [for] loop over [gameStates], from index [i] on, as a recursion
    over the slots still to visit; [None] is passed up from [search]. *)
Fixpoint childLoop (gameStates : list GameState) (alpha beta max : Z)
    (m : Mem) : option (Z * Mem) :=
  match gameStates with
  | [] => Some (max, m)
  | possibleNext :: rest =>
      let hashVal := hash possibleNext in
      match probe (transpositionTable m) depth hashVal alpha beta max with
      | ProbeReturn val => Some (val, m)
      | ProbeSearch alpha beta =>
          match search possibleNext alpha beta m with
          | None => None
          | Some (r, m) =>
              let val := to_int8 (- r) in
              let max := if max <? val then val else max in
              childLoop rest alpha beta max
                        (record m hashVal depth val alpha beta)
          end
      end
  end.
End ChildLoop.

(** [depth] is a [uint8]; it is a [nat] here because the recursion descends
    on it ([depth - 1] is only computed for [depth > 0]). *)
Fixpoint miniMax (depth : nat) (curState : GameState) (alpha beta : Z)
    (m : Mem) : option (Z * Mem) :=
  match depth with
  | O => returning (to_int8 (activePlayer curState * eval curState)) m
  | S depth' =>
      if total curState <=? 0
      then returning (to_int8 (activePlayer curState * eval curState)) m
      else
        match getPossibleStates curState with
        | None => None
        | Some gameStates =>
            match childLoop (miniMax depth') (Z.of_nat depth)
                            gameStates alpha beta (-1) m with
            | None => None
            | Some (val, m) => returning val m
            end
        end
  end.

(** ** Move selector *)

Fixpoint bestLoop (nextPossible : list GameState) (i max maxI : Z) (m : Mem)
    : option (Z * Z * Mem) :=
  match nextPossible with
  | [] => Some (max, maxI, m)
  | next :: rest =>
      match miniMax 100 next (-128) 127 m with
      | None => None
      | Some (r, m) =>
          let evaluation := to_int8 (- r) in
          if max <=? evaluation
          then bestLoop rest (i + 1) evaluation i m
          else bestLoop rest (i + 1) max maxI m
      end
  end.

Definition makeBestMove (curState : GameState) (m : Mem)
    : option (GameState * Mem) :=
  match getPossibleStates curState with
  | None => None
  | Some nextPossible =>
      match bestLoop nextPossible 0 (-2) 255 m with
      | None => None
      | Some (max, maxI, m) =>
          if max =? -2
          then option_map (fun s => (s, m)) (nextPossible !! 0%nat)
          else option_map (fun s => (s, m)) (nextPossible !! Z.to_nat maxI)
      end
  end.

(** ** The specification's reference: unpruned, table-free minimax *)

(** These definitions follow the words of the specification, not the code:
    its rule engine ([legalSuccessors], [applyMove], [terminal],
    [evaluateTerminal]) over unbounded integers, and the plain negamax it
    compares the search with, which visits every successor and keeps no
    table. *)
Module Reference.

(** The six faces less the one showing and its complement to seven, in
    ascending order. *)
Definition legalFaces (shown : Z) : list Z :=
  List.filter (fun f => negb (f =? shown) && negb (f + shown =? 7))
              [1; 2; 3; 4; 5; 6].

Definition applyMove (config : GameState) (move : Z) : GameState :=
  let newTotal := total config - move in
  let newActivePlayer := - activePlayer config in
  mkGameState move newTotal newActivePlayer
              (if newTotal <=? 0 then newActivePlayer else 0).

Definition legalSuccessors (config : GameState) : list GameState :=
  List.map (applyMove config) (legalFaces (lastMove config)).

Definition terminal (config : GameState) : bool := total config <=? 0.

Definition evaluateTerminal (config : GameState) : Z :=
  if terminal config then winner config else 0.

Definition MIN_SCORE : Z := -128.

Definition maximum (scores : list Z) : Z := List.fold_right Z.max MIN_SCORE scores.

Fixpoint fullMinimax (depth : nat) (config : GameState) : Z :=
  match depth with
  | O => activePlayer config * evaluateTerminal config
  | S depth' =>
      if terminal config
      then activePlayer config * evaluateTerminal config
      else maximum (List.map (fun s => - fullMinimax depth' s)
                             (legalSuccessors config))
  end.

End Reference.

(** ** Predicates and auxiliary functions of the statements *)

Definition legalFace (s : GameState) : Prop := 1 <= lastMove s <= 6.

(** The claim of C6 as the specification words it: the faces of the
    successors, in generation order, are the legal faces in ascending
    order. *)
Definition ascendingEnumeration (s : GameState) : Prop :=
  option_map (List.map lastMove) (getPossibleStates s)
  = Some (Reference.legalFaces (lastMove s)).

(** One child searched without a cut-off, then the rest of the loop: the
    recursive call with the current window, the update of the running
    maximum, the table write, and the later children. *)
Definition descend (search : GameState -> Z -> Z -> Mem -> option (Z * Mem))
    (depth : Z) (possibleNext : GameState) (rest : list GameState)
    (alpha beta max : Z) (m : Mem) : option (Z * Mem) :=
  match search possibleNext alpha beta m with
  | None => None
  | Some (r, m') =>
      childLoop search depth rest alpha beta (Z.max max (to_int8 (- r)))
                (record m' (hash possibleNext) depth (to_int8 (- r)) alpha beta)
  end.

Definition outcomeScore (v : Z) : Prop := v = -1 \/ v = 0 \/ v = 1.

Definition isPlayer (p : Z) : Prop := p = 1 \/ p = -1.

(** Configurations of the data model: a face of the die, a total that an
    [int8] holds, one of the two players to move, and a winner field that is
    0 or a player. *)
Definition playable (s : GameState) : Prop :=
  legalFace s /\ int8_range (total s) /\
  isPlayer (activePlayer s) /\ outcomeScore (winner s).

(** The windows that occur when the search starts from (-128, 127). *)
Definition searchBeta (beta : Z) : Prop := beta = 63 \/ beta = 127.

(** A slot is tame when it was never written or holds a record that was
    packed as EXACT with a score among the game outcomes. *)
Definition tameSlot (w : Z) : Prop :=
  w = 0 \/
  exists D v, uint8_range D /\ outcomeScore v /\
              w = makeTTVal D v NODE_TYPE_EXACT.

Definition tameTable (tt : gmap Z Z) : Prop := forall h, tameSlot (slot tt h).

Definition tameEvent (e : Event) : Prop :=
  match e with
  | EvStore _ _ val _ => outcomeScore val
  | EvReturn val => outcomeScore val
  end.

(** A call that started in [m] returned a game outcome, left the table tame,
    and added only tame events to the trace. *)
Definition tameResult (m : Mem) (r : option (Z * Mem)) : Prop :=
  exists v m', r = Some (v, m') /\ outcomeScore v /\
    tameTable (transpositionTable m') /\
    exists new, trace m' = new ++ trace m /\ Forall tameEvent new.

(** The scores the move selector computes, in generation order: each
    successor is searched to depth 100 in the window (-128, 127) and the
    result negated, the table being carried from one search to the next. *)
Fixpoint successorScores (nextPossible : list GameState) (m : Mem)
    : option (list Z * Mem) :=
  match nextPossible with
  | [] => Some ([], m)
  | next :: rest =>
      match miniMax 100 next (-128) 127 m with
      | None => None
      | Some (r, m1) =>
          match successorScores rest m1 with
          | None => None
          | Some (scores, m2) => Some (to_int8 (- r) :: scores, m2)
          end
      end
  end.

(** The running maximum and its index, over a list of scores. *)
Fixpoint runningBest (scores : list Z) (i max maxI : Z) : Z * Z :=
  match scores with
  | [] => (max, maxI)
  | evaluation :: rest =>
      if max <=? evaluation
      then runningBest rest (i + 1) evaluation i
      else runningBest rest (i + 1) max maxI
  end.

(** The claim of C1 as the specification words it, at one depth and one
    configuration: the search from the zero-initialised table and the window
    (-128, 127) returns the value of the reference minimax. *)
Definition pruningEquivalence (depth : nat) (s : GameState) : Prop :=
  option_map fst (miniMax depth s (-128) 127 freshMem)
  = Some (Reference.fullMinimax depth s).

(** Configurations as [performMove] makes them: the winner field is the
    player to move once the total is at most 0, and 0 before. *)
Definition settled (s : GameState) : Prop :=
  legalFace s /\ int8_range (total s) /\ isPlayer (activePlayer s) /\
  winner s = (if total s <=? 0 then activePlayer s else 0).

(** The value of the game at a configuration: the reference minimax with as
    much depth as the total allows plies. *)
Definition outcome (s : GameState) : Z :=
  Reference.fullMinimax (Z.to_nat (total s)) s.

(** A table is sound when the slot of every settled configuration was never
    written or holds, packed as EXACT, the value of that configuration as
    its parent sees it. *)
Definition soundTable (tt : gmap Z Z) : Prop :=
  forall c, settled c ->
    slot tt (hash c) = 0 \/
    exists D, uint8_range D /\
              slot tt (hash c) = makeTTVal D (- outcome c) NODE_TYPE_EXACT.

(** ** The driver *)

(** [rollDice], with the value [r] of [rand()] as a parameter (the C++
    remainder truncates towards zero, as [Z.rem] does). *)
Definition rollDice (r : Z) : Z := to_uint8 (Z.rem r 6 + 1).

(** The [while (curState.winner == 0)] loop of [main], as it is compiled
    with [AUTOINPUT] defined: the move of the human side is the one
    [makeBestMove] proposes.  What the loop prints is left out; the searches
    it runs for printing are kept, since they write the table.  [fuel] bounds
    the number of iterations; [None] is an exhausted [fuel] or a [None] of a
    callee. *)
Fixpoint gameLoop (fuel : nat) (curState : GameState) (m : Mem)
    : option (GameState * Mem) :=
  match fuel with
  | O => None
  | S fuel' =>
      if winner curState =? 0 then
        if activePlayer curState =? 1 then
          match makeBestMove curState m with
          | None => None
          | Some (curState, m) =>
              match miniMax 63 curState (-128) 127 m with
              | None => None
              | Some (_, m) => gameLoop fuel' curState m
              end
          end
        else
          match makeBestMove curState m with
          | None => None
          | Some (bestState, m) =>
              let move := lastMove bestState in
              if (move + lastMove curState =? 7) || (move =? lastMove curState)
              then gameLoop fuel' curState m
              else gameLoop fuel' (performMove curState move) m
          end
      else Some (curState, m)
  end.

(** How one game ends in [main]: the winner agrees with the evaluation made
    before the first move, or [main] prints "huh?" and returns. *)
Inductive Verdict : Type :=
| Consistent
| Huh.

(** The body of the innermost [for] loop of [main]: the evaluation of the
    starting configuration, the game, and the comparison of the winner with
    the evaluation. *)
Definition playGame (fuel : nat) (startTotal startMove startPlayer : Z)
    (m : Mem) : option (Verdict * GameState * Mem) :=
  let curState := createGameState startMove startPlayer startTotal in
  match miniMax 100 curState (-128) 127 m with
  | None => None
  | Some (r, m) =>
      let eval := if startPlayer =? -1 then to_int8 (- r) else r in
      match gameLoop fuel curState m with
      | None => None
      | Some (curState, m) =>
          if winner curState =? 1 then
            if eval <? 1 then Some (Huh, curState, m)
            else Some (Consistent, curState, m)
          else if winner curState =? -1 then
            if -1 <? eval then Some (Huh, curState, m)
            else Some (Consistent, curState, m)
          else Some (Consistent, curState, m)
      end
  end.

(** The three nested [for] loops of [main], flattened: totals from 66 down
    to 11, for each the faces 1 to 6, for each the one starting player -1. *)
Definition startingPoints : list (Z * Z * Z) :=
  List.flat_map
    (fun startTotal =>
       List.flat_map
         (fun startMove => [(startTotal, startMove, -1)])
         [1; 2; 3; 4; 5; 6])
    (List.map (fun k => 66 - Z.of_nat k) (List.seq 0 56)).

Fixpoint playGames (fuel : nat) (starts : list (Z * Z * Z)) (m : Mem)
    : option (Verdict * Mem) :=
  match starts with
  | [] => Some (Consistent, m)
  | (startTotal, startMove, startPlayer) :: rest =>
      match playGame fuel startTotal startMove startPlayer m with
      | None => None
      | Some (Huh, _, m) => Some (Huh, m)
      | Some (Consistent, _, m) => playGames fuel rest m
      end
  end.

(** [main], from the zero-initialised table. *)
Definition main (fuel : nat) : option (Verdict * Mem) :=
  playGames fuel startingPoints freshMem.

(** The configurations a search from [start] can visit: [miniMax] descends
    from a configuration into its successors only while the total is
    positive. *)
Inductive explored (start : GameState) : GameState -> Prop :=
| explored_start : explored start start
| explored_step (s next : GameState) (successors : list GameState) :
    explored start s -> 0 < total s ->
    getPossibleStates s = Some successors -> In next successors ->
    explored start next.

(** No record present in the first table is absent from the second. *)
Definition recordsKept (before after : gmap Z Z) : Prop :=
  forall h, 0 < getDepth before h -> 0 < getDepth after h.

(** ** Facts about the fixed-width conversions *)

Ltac unfold_ints :=
  unfold to_uint8, to_int8, to_uint16, to_uint32, uint8_range, int8_range in *.

Lemma to_int8_id z : int8_range z -> to_int8 z = z.
Proof. unfold_ints. intros H. rewrite Z.mod_small; lia. Qed.

Lemma to_uint8_id z : uint8_range z -> to_uint8 z = z.
Proof. unfold_ints. intros H. rewrite Z.mod_small; lia. Qed.

Lemma to_int8_range z : int8_range (to_int8 z).
Proof. unfold_ints. pose proof (Z.mod_pos_bound (z + 128) 256). lia. Qed.

Lemma to_uint8_range z : uint8_range (to_uint8 z).
Proof. unfold_ints. pose proof (Z.mod_pos_bound z 256). lia. Qed.

(** Or-ing a value below [2^n] with one shifted left by [n] adds them. *)
Lemma lor_shiftl_add a b n :
  0 <= n -> 0 <= a < 2 ^ n -> Z.lor a (Z.shiftl b n) = a + b * 2 ^ n.
Proof.
  intros Hn Ha.
  rewrite <- (Z.shiftl_mul_pow2 b n Hn), <- Zbitwise.Z.add_lor_land.
  assert (Hdisj : Z.land a (Z.shiftl b n) = 0).
  { apply Z.bits_inj'. intros i Hi.
    rewrite Z.land_spec, Z.bits_0.
    destruct (Z.ltb_spec i n) as [Hlt | Hge].
    - rewrite (Z.shiftl_spec_low b n i Hlt). apply andb_false_r.
    - rewrite <- (Z.mod_small a (2 ^ n) Ha), Z.testbit_mod_pow2 by lia.
      replace (i <? n) with false by (symmetry; apply Z.ltb_ge; lia).
      reflexivity. }
  rewrite Hdisj. lia.
Qed.

Lemma lor_add_shiftl a b n :
  0 <= n -> 0 <= a < 2 ^ n -> Z.lor (Z.shiftl b n) a = b * 2 ^ n + a.
Proof. intros Hn Ha. rewrite Z.lor_comm, lor_shiftl_add by assumption. lia. Qed.

(** ** Rule engine: [performMove] *)

(** C2.  As long as the two [int8] results do not wrap (the new total and the
    negated player are representable, which is so for every configuration of
    the game: totals from 66 down to -5, moves 1..6, players 1 and -1),
    [performMove] subtracts the move from the total, hands the turn to the
    other player, records the move as [lastMove], and sets [winner] to the new
    active player when the new total is at most 0 and to 0 otherwise.  So a
    terminal configuration it produces names as winner the opponent of the
    player who moved. *)
Theorem performMove_spec (state : GameState) (move : Z) :
  int8_range (total state - move) ->
  int8_range (- activePlayer state) ->
  let next := performMove state move in
  total next = total state - move /\
  activePlayer next = - activePlayer state /\
  lastMove next = move /\
  winner next = (if total next <=? 0 then activePlayer next else 0) /\
  (total next <= 0 -> winner next = - activePlayer state).
Proof.
  intros Htot Hpl next. subst next. unfold performMove. cbn [total activePlayer lastMove winner].
  rewrite !(to_int8_id (total state - move)) by assumption.
  rewrite (to_int8_id (- activePlayer state)) by assumption.
  repeat split.
  - destruct (total state - move <=? 0); cbn [b2z].
    + rewrite Z.mul_1_l. now apply to_int8_id.
    + reflexivity.
  - intros Hle. apply Z.leb_le in Hle. rewrite Hle. cbn [b2z].
    rewrite Z.mul_1_l. now apply to_int8_id.
Qed.

Lemma performMove_spec_witness :
  let state := createGameState 1 (-1) 3 in
  total (performMove state 4) = -1 /\ winner (performMove state 4) = 1.
Proof.
  pose proof (performMove_spec (createGameState 1 (-1) 3) 4) as H.
  cbn [createGameState total activePlayer] in H.
  destruct H as (Ht & _ & _ & _ & Hw); [unfold int8_range; lia .. | ].
  split; [exact Ht | apply Hw; rewrite Ht; lia].
Defined.

(** ** State encoder: [hash] *)

(** On field values of the declared types the four bytes do not overlap, so
    the key is their positional sum. *)
Lemma hash_sum (s : GameState) :
  inType s ->
  hash s = (total s + 128) + (activePlayer s + 128) * 256
           + (winner s + 128) * 65536 + lastMove s * 16777216.
Proof.
  intros (Hm & Ht & Hp & Hw). unfold hash.
  rewrite Z.lor_0_l.
  rewrite !to_uint8_id by (unfold_ints; lia).
  unfold_ints.
  rewrite (lor_shiftl_add _ _ 8) by lia.
  rewrite (lor_shiftl_add _ _ 16) by lia.
  rewrite (lor_shiftl_add _ _ 24) by lia.
  change (2 ^ 8) with 256. change (2 ^ 16) with 65536.
  change (2 ^ 24) with 16777216.
  apply Z.mod_small. lia.
Qed.

Lemma hash_eq_inv (s1 s2 : GameState) :
  inType s1 -> inType s2 -> hash s1 = hash s2 -> s1 = s2.
Proof.
  intros H1 H2 Heq.
  rewrite (hash_sum s1 H1), (hash_sum s2 H2) in Heq.
  destruct s1 as [m1 t1 p1 w1], s2 as [m2 t2 p2 w2].
  destruct H1 as (Hm1 & Ht1 & Hp1 & Hw1), H2 as (Hm2 & Ht2 & Hp2 & Hw2).
  cbn [lastMove total activePlayer winner] in *. unfold_ints.
  assert (t1 = t2) by lia. assert (p1 = p2) by lia.
  assert (w1 = w2) by lia. assert (m1 = m2) by lia.
  congruence.
Qed.

(** C3.  [hash] is injective on configurations whose fields lie in their
    declared types ([lastMove] a [uint8], the others [int8]): two
    configurations that differ in some field get distinct keys, and every key
    is a 32-bit value. *)
Theorem hash_injective (s1 s2 : GameState) :
  inType s1 -> inType s2 -> s1 <> s2 ->
  hash s1 <> hash s2 /\ 0 <= hash s1 < 2 ^ 32 /\ 0 <= hash s2 < 2 ^ 32.
Proof.
  intros H1 H2 Hne. split.
  - intros Heq. apply Hne. now apply hash_eq_inv.
  - unfold hash, to_uint32. split; apply Z.mod_pos_bound; lia.
Qed.

Lemma hash_injective_witness :
  hash (mkGameState 5 61 1 0) <> hash (mkGameState 4 61 1 0).
Proof.
  apply (hash_injective (mkGameState 5 61 1 0) (mkGameState 4 61 1 0));
    [ unfold inType, uint8_range, int8_range; cbn; lia
    | unfold inType, uint8_range, int8_range; cbn; lia
    | discriminate ].
Defined.

(** ** Transposition-table records: packing and unpacking *)

(** A word with depth byte [D] and low byte [L], taken apart the way the
    three getters do. *)
Lemma word_fields (D L : Z) :
  0 <= D <= 255 -> 0 <= L <= 255 ->
  to_uint8 (Z.shiftr (D * 256 + L) 8) = D /\
  to_uint8 (Z.land (Z.shiftr (D * 256 + L) 6) 3) = L / 64 /\
  Z.land (D * 256 + L) 63 = L mod 64.
Proof.
  intros HD HL. unfold to_uint8.
  rewrite !Z.shiftr_div_pow2 by lia.
  change 3 with (Z.ones 2). change 63 with (Z.ones 6).
  rewrite !Z.land_ones by lia.
  change (2 ^ 8) with 256. change (2 ^ 6) with 64. change (2 ^ 2) with 4.
  repeat split; Z.div_mod_to_equations; lia.
Qed.

(** Or-ing two bytes gives a byte. *)
Lemma lor_byte (a b : Z) :
  0 <= a <= 255 -> 0 <= b <= 255 -> 0 <= Z.lor a b <= 255.
Proof.
  intros Ha Hb.
  assert (Hnn : 0 <= Z.lor a b) by (apply Z.lor_nonneg; lia).
  split; [exact Hnn |].
  destruct (Z.eq_dec (Z.lor a b) 0) as [Hz | Hnz]; [lia |].
  assert (Hlt : Z.lor a b < 2 ^ 8).
  { apply Z.log2_lt_pow2; [lia |].
    rewrite Z.log2_lor by lia.
    apply Z.max_lub_lt.
    - destruct (Z.eq_dec a 0) as [-> | ?]; [cbn; lia |].
      apply Z.log2_lt_pow2; [lia |]. change (2 ^ 8) with 256. lia.
    - destruct (Z.eq_dec b 0) as [-> | ?]; [cbn; lia |].
      apply Z.log2_lt_pow2; [lia |]. change (2 ^ 8) with 256. lia. }
  change (2 ^ 8) with 256 in Hlt. lia.
Qed.

(** The packed word: the depth byte above a low byte in which the type, moved
    up by six bits, is or-ed with the whole byte of the score. *)
Lemma makeTTVal_word (depth eval type : Z) :
  uint8_range depth -> 0 <= type <= 3 ->
  makeTTVal depth eval type
  = depth * 256 + Z.lor (type * 64) (to_uint8 eval) /\
  0 <= Z.lor (type * 64) (to_uint8 eval) <= 255.
Proof.
  intros HD HT. unfold makeTTVal.
  pose proof (to_uint8_range eval) as HE.
  assert (HL : 0 <= Z.lor (type * 64) (to_uint8 eval) <= 255).
  { apply lor_byte; [lia | exact HE]. }
  split; [| exact HL].
  rewrite (to_uint8_id type) by (unfold uint8_range; lia).
  unfold to_uint16. unfold uint8_range in HD.
  rewrite (Z.mod_small depth) by lia.
  rewrite (Z.shiftl_mul_pow2 type 6) by lia. change (2 ^ 6) with 64.
  rewrite <- Z.lor_assoc.
  rewrite lor_add_shiftl by (change (2 ^ 8) with 256; lia).
  change (2 ^ 8) with 256.
  apply Z.mod_small. lia.
Qed.

Lemma slot_store (m : Mem) (hashVal depth val type : Z) :
  slot (transpositionTable (store m hashVal depth val type)) hashVal
  = makeTTVal depth val type.
Proof. unfold slot, store. cbn. now rewrite lookup_insert_eq. Qed.

Lemma slot_store_ne (m : Mem) (hashVal depth val type h : Z) :
  h <> hashVal ->
  slot (transpositionTable (store m hashVal depth val type)) h
  = slot (transpositionTable m) h.
Proof. intros Hne. unfold slot, store. cbn. now rewrite lookup_insert_ne. Qed.

(** What the getters see in a slot that holds a packed word. *)
Lemma getters_of_word (tt : gmap Z Z) (h depth eval type : Z) :
  uint8_range depth -> 0 <= type <= 3 ->
  slot tt h = makeTTVal depth eval type ->
  getDepth tt h = depth /\
  getNodeType tt h = Z.lor (type * 64) (to_uint8 eval) / 64 /\
  getRating tt h = to_int8 (Z.lor (type * 64) (to_uint8 eval) mod 64).
Proof.
  intros HD HT Hs. unfold getDepth, getNodeType, getRating. rewrite Hs.
  destruct (makeTTVal_word depth eval type HD HT) as [-> HL].
  destruct (word_fields depth _ HD HL) as (-> & -> & ->). auto.
Qed.

(** The round trip the layout comment promises, for a score that fits the
    six-bit field. *)
Lemma store_readback (m : Mem) (hashVal depth val type : Z) :
  uint8_range depth -> 0 <= type <= 3 -> 0 <= val <= 63 ->
  let tt := transpositionTable (store m hashVal depth val type) in
  getDepth tt hashVal = depth /\
  getNodeType tt hashVal = type /\
  getRating tt hashVal = val.
Proof.
  intros HD HT HV tt.
  destruct (getters_of_word tt hashVal depth val type HD HT
              (slot_store m hashVal depth val type)) as (-> & -> & ->).
  rewrite (to_uint8_id val) by (unfold uint8_range; lia).
  replace (type * 64) with (Z.shiftl type 6)
    by (rewrite Z.shiftl_mul_pow2 by lia; reflexivity).
  rewrite lor_add_shiftl by (change (2 ^ 6) with 64; lia).
  change (2 ^ 6) with 64.
  split; [reflexivity |]. split.
  - Z.div_mod_to_equations; lia.
  - replace ((type * 64 + val) mod 64) with val
      by (Z.div_mod_to_equations; lia).
    apply to_int8_id. unfold int8_range. lia.
Qed.

(** C4.  The round trip fails for a negative score.  Stored with score -1
    (with any depth and any of the three bound types), a record reads back
    with its depth, but with bound type UPPER and score 63: the score byte
    0xFF of -1 is or-ed over the two type bits. *)
Theorem store_negative_score_readback (m : Mem) (hashVal depth type : Z) :
  uint8_range depth -> 1 <= type <= 3 ->
  let tt := transpositionTable (store m hashVal depth (-1) type) in
  getDepth tt hashVal = depth /\
  getNodeType tt hashVal = NODE_TYPE_UPPER /\
  getRating tt hashVal = 63.
Proof.
  intros HD HT tt.
  destruct (getters_of_word tt hashVal depth (-1) type HD ltac:(lia)
              (slot_store m hashVal depth (-1) type)) as (-> & -> & ->).
  split; [reflexivity |].
  assert (Hc : type = 1 \/ type = 2 \/ type = 3) by lia.
  destruct Hc as [-> | [-> | ->]]; split; reflexivity.
Qed.

Lemma store_negative_score_readback_witness :
  let tt := transpositionTable (store freshMem 7 1 (-1) NODE_TYPE_EXACT) in
  getDepth tt 7 = 1 /\ getNodeType tt 7 = NODE_TYPE_UPPER /\ getRating tt 7 = 63.
Proof.
  apply (store_negative_score_readback freshMem 7 1 NODE_TYPE_EXACT);
    unfold uint8_range, NODE_TYPE_EXACT; lia.
Defined.

(** ** Rule engine: [getPossibleStates] *)

Lemma legalFace_cases (s : GameState) :
  legalFace s ->
  lastMove s = 1 \/ lastMove s = 2 \/ lastMove s = 3 \/
  lastMove s = 4 \/ lastMove s = 5 \/ lastMove s = 6.
Proof. unfold legalFace. lia. Qed.

Ltac face_cases s H :=
  let Hc := fresh "Hface" in
  destruct (legalFace_cases s H) as [Hc | [Hc | [Hc | [Hc | [Hc | Hc]]]]].

(** C6, refuted as stated: after face 1 the generator produces the faces
    5, 4, 3, 2 in this order, not 2, 3, 4, 5. *)
Lemma ascendingEnumeration_fails :
  ~ ascendingEnumeration (createGameState 1 (-1) 11).
Proof. unfold ascendingEnumeration. cbn. discriminate. Qed.

(** C6, amended.  For a configuration with [lastMove] in 1..6 the generator
    enumerates the four legal faces in descending order: the i-th successor
    carries the i-th largest legal face. *)
Theorem getPossibleStates_descending (s : GameState) :
  legalFace s ->
  option_map (List.map lastMove) (getPossibleStates s)
  = Some (List.rev (Reference.legalFaces (lastMove s))).
Proof.
  intros H. unfold getPossibleStates.
  face_cases s H; rewrite Hface; reflexivity.
Qed.

Lemma getPossibleStates_descending_witness :
  option_map (List.map lastMove) (getPossibleStates (createGameState 3 1 40))
  = Some [6; 5; 2; 1].
Proof.
  apply (getPossibleStates_descending (createGameState 3 1 40)).
  unfold legalFace. cbn. lia.
Defined.

(** C7.  For a configuration with [lastMove] in 1..6 the generator produces
    exactly four successors: they are the results of [performMove] on four
    distinct faces in 1..6, these faces are exactly the faces that neither
    equal the input's [lastMove] nor add up to 7 with it, and so no
    successor's [lastMove] equals the input's [lastMove] or adds up to 7
    with it. *)
Theorem getPossibleStates_four_legal (s : GameState) :
  legalFace s ->
  exists (moves : list Z) (successors : list GameState),
    getPossibleStates s = Some successors /\
    successors = List.map (performMove s) moves /\
    length successors = 4%nat /\
    List.NoDup moves /\
    (forall move, In move moves <->
                  (1 <= move <= 6 /\ move <> lastMove s /\
                   move + lastMove s <> 7)) /\
    List.map lastMove successors = moves /\
    Forall (fun next => lastMove next <> lastMove s /\
                        lastMove next + lastMove s <> 7) successors.
Proof.
  intros H. unfold getPossibleStates.
  face_cases s H; rewrite Hface;
    [ exists [5; 4; 3; 2] | exists [6; 4; 3; 1] | exists [6; 5; 2; 1]
    | exists [6; 5; 2; 1] | exists [6; 4; 3; 1] | exists [5; 4; 3; 2] ];
    (eexists; split; [reflexivity |]; split; [reflexivity |];
     split; [reflexivity |]; split;
     [ repeat (apply List.NoDup_cons; [cbn [In]; lia |]); apply List.NoDup_nil
     | split;
       [ intros move; cbn [In]; lia
       | split;
         [ reflexivity
         | repeat (apply List.Forall_cons;
                   [cbn [performMove lastMove]; lia |]);
           apply List.Forall_nil ] ] ]).
Qed.

Lemma getPossibleStates_four_legal_witness :
  exists (moves : list Z) (successors : list GameState),
    getPossibleStates (createGameState 2 (-1) 66) = Some successors /\
    successors = List.map (performMove (createGameState 2 (-1) 66)) moves /\
    length successors = 4%nat /\
    List.NoDup moves /\
    Forall (fun next => lastMove next <> 2 /\ lastMove next + 2 <> 7) successors.
Proof.
  destruct (getPossibleStates_four_legal (createGameState 2 (-1) 66))
    as (moves & successors & Hgs & Hmap & Hlen & Hnd & _ & _ & Hall).
  - unfold legalFace. cbn. lia.
  - exists moves, successors. repeat split; assumption.
Defined.

(** ** Search engine: base case *)

(** C8.  When [depth] is 0 or the configuration is terminal, [miniMax]
    returns [activePlayer * eval], converted to the [int8] return type, and
    leaves the table alone; [eval] is the winner of a terminal configuration
    and 0 otherwise.  Whenever the product is representable (it always is for
    players 1 and -1) this is [activePlayer * evaluateTerminal] exactly, and
    a call that ran out of depth on a non-terminal configuration returns 0. *)
Theorem miniMax_base_case (depth : nat) (s : GameState) (alpha beta : Z) (m : Mem) :
  depth = 0%nat \/ total s <= 0 ->
  miniMax depth s alpha beta m
    = returning (to_int8 (activePlayer s * eval s)) m /\
  eval s = to_int8 (if total s <=? 0 then winner s else 0) /\
  (int8_range (winner s) -> int8_range (activePlayer s * winner s) ->
   miniMax depth s alpha beta m
     = returning (activePlayer s * Reference.evaluateTerminal s) m) /\
  (0 < total s -> miniMax depth s alpha beta m = returning 0 m).
Proof.
  intros Hbase.
  assert (Hmm : miniMax depth s alpha beta m
                = returning (to_int8 (activePlayer s * eval s)) m).
  { destruct depth as [| depth']; [reflexivity |].
    destruct Hbase as [Hd | Ht]; [discriminate |].
    cbn [miniMax]. apply Z.leb_le in Ht. now rewrite Ht. }
  assert (Hev : eval s = to_int8 (if total s <=? 0 then winner s else 0)).
  { unfold eval. destruct (total s <=? 0); cbn [b2z]; f_equal; lia. }
  repeat split; [exact Hmm | exact Hev | |].
  - intros Hw Hprod. rewrite Hmm, Hev. f_equal.
    unfold Reference.evaluateTerminal, Reference.terminal.
    destruct (total s <=? 0).
    + rewrite (to_int8_id (winner s)) by assumption. now apply to_int8_id.
    + replace (to_int8 0) with 0 by reflexivity.
      rewrite Z.mul_0_r. reflexivity.
  - intros Hpos. rewrite Hmm, Hev.
    replace (total s <=? 0) with false by (symmetry; apply Z.leb_gt; lia).
    replace (to_int8 0) with 0 by reflexivity.
    rewrite Z.mul_0_r. reflexivity.
Qed.

Lemma miniMax_base_case_witness :
  miniMax 0 (createGameState 1 (-1) 66) (-128) 127 freshMem
  = returning 0 freshMem.
Proof.
  destruct (miniMax_base_case 0 (createGameState 1 (-1) 66) (-128) 127 freshMem)
    as (_ & _ & _ & H); [left; reflexivity |].
  apply H. cbn. lia.
Defined.

(** ** Search engine: the table lookup in the child loop *)

Lemma ite_ltb_max (a b : Z) : (if a <? b then b else a) = Z.max a b.
Proof. destruct (Z.ltb_spec a b); lia. Qed.

Lemma ite_ltb_min (e b : Z) : (if e <? b then e else b) = Z.min b e.
Proof. destruct (Z.ltb_spec e b); lia. Qed.

Lemma childLoop_descend search depth next rest alpha beta max m :
  probe (transpositionTable m) depth (hash next) alpha beta max
    = ProbeSearch alpha beta ->
  childLoop search depth (next :: rest) alpha beta max m
  = descend search depth next rest alpha beta max m.
Proof.
  intros Hp. cbn [childLoop]. rewrite Hp. unfold descend.
  destruct (search next alpha beta m) as [[r m'] |]; [| reflexivity].
  now rewrite ite_ltb_max.
Qed.

Lemma childLoop_probe_search search depth next rest alpha beta max m a b :
  probe (transpositionTable m) depth (hash next) alpha beta max
    = ProbeSearch a b ->
  childLoop search depth (next :: rest) alpha beta max m
  = descend search depth next rest a b max m.
Proof.
  intros Hp. cbn [childLoop]. rewrite Hp. unfold descend.
  destruct (search next a b m) as [[r m'] |]; [| reflexivity].
  now rewrite ite_ltb_max.
Qed.

Lemma childLoop_probe_return search depth next rest alpha beta max m v :
  probe (transpositionTable m) depth (hash next) alpha beta max
    = ProbeReturn v ->
  childLoop search depth (next :: rest) alpha beta max m = Some (v, m).
Proof. intros Hp. cbn [childLoop]. now rewrite Hp. Qed.

(** C5.  In the child loop of [miniMax] at depth [depth > 0], with [stored]
    the score and [ttDepth] the depth read from the slot of the child at
    hand: a record with [ttDepth < depth] is not consulted, the child is
    searched with the window unchanged.  With [ttDepth >= depth], an EXACT
    record ends the loop with [stored] as its result; a LOWER record raises
    [alpha] to [stored] if that is higher, an UPPER record lowers [beta] to
    [stored] if that is lower, and if then [alpha >= beta] the loop ends with
    [max(stored, max)], searching neither this child nor a later one;
    otherwise the child is searched with the adjusted window.  Whatever the
    loop ends with is what the enclosing [miniMax] call returns. *)
Theorem childLoop_table_lookup
    (search : GameState -> Z -> Z -> Mem -> option (Z * Mem)) (depth : Z)
    (next : GameState) (rest : list GameState) (alpha beta max : Z) (m : Mem) :
  0 < depth ->
  let tt := transpositionTable m in
  let ttDepth := getDepth tt (hash next) in
  let stored := getRating tt (hash next) in
  let type := getNodeType tt (hash next) in
  let loop := childLoop search depth (next :: rest) alpha beta max m in
  (ttDepth < depth ->
   loop = descend search depth next rest alpha beta max m) /\
  (depth <= ttDepth -> type = NODE_TYPE_EXACT -> loop = Some (stored, m)) /\
  (depth <= ttDepth -> type = NODE_TYPE_LOWER ->
   loop = if beta <=? Z.max alpha stored
          then Some (Z.max stored max, m)
          else descend search depth next rest (Z.max alpha stored) beta max m) /\
  (depth <= ttDepth -> type = NODE_TYPE_UPPER ->
   loop = if Z.min beta stored <=? alpha
          then Some (Z.max stored max, m)
          else descend search depth next rest alpha (Z.min beta stored) max m) /\
  (forall (d : nat) (s : GameState) (successors : list GameState)
          (a b : Z) (m0 m1 : Mem) (v : Z),
     0 < total s -> getPossibleStates s = Some successors ->
     childLoop (miniMax d) (Z.of_nat (S d)) successors a b (-1) m0
       = Some (v, m1) ->
     miniMax (S d) s a b m0 = returning v m1).
Proof.
  intros Hd tt ttDepth stored type loop.
  assert (Hlow : ttDepth < depth ->
                 probe tt depth (hash next) alpha beta max
                 = ProbeSearch alpha beta).
  { intros Hlt. unfold probe. cbv zeta. fold tt ttDepth.
    replace (depth <=? ttDepth) with false by (symmetry; apply Z.leb_gt; lia).
    now rewrite andb_false_r. }
  assert (Hhigh : depth <= ttDepth ->
                  (0 <? ttDepth) && (depth <=? ttDepth) = true).
  { intros Hle. apply andb_true_iff. split; [apply Z.ltb_lt | apply Z.leb_le]; lia. }
  repeat split.
  - intros Hlt. subst loop. apply childLoop_descend. now apply Hlow.
  - intros Hle Hty. subst loop. apply childLoop_probe_return.
    unfold probe. cbv zeta. fold tt ttDepth type stored. rewrite (Hhigh Hle), Hty.
    reflexivity.
  - intros Hle Hty. subst loop.
    destruct (beta <=? Z.max alpha stored) eqn:Hcut.
    + replace (Z.max stored max) with (Z.max max stored) by lia.
      apply childLoop_probe_return.
      unfold probe. cbv zeta. fold tt ttDepth type stored. rewrite (Hhigh Hle), Hty.
      cbn match. rewrite !ite_ltb_max, Hcut. reflexivity.
    + apply childLoop_probe_search.
      unfold probe. cbv zeta. fold tt ttDepth type stored. rewrite (Hhigh Hle), Hty.
      cbn match. rewrite !ite_ltb_max, Hcut. reflexivity.
  - intros Hle Hty. subst loop.
    destruct (Z.min beta stored <=? alpha) eqn:Hcut.
    + replace (Z.max stored max) with (Z.max max stored) by lia.
      apply childLoop_probe_return.
      unfold probe. cbv zeta. fold tt ttDepth type stored. rewrite (Hhigh Hle), Hty.
      cbn match. rewrite ite_ltb_max, ite_ltb_min, Hcut. reflexivity.
    + apply childLoop_probe_search.
      unfold probe. cbv zeta. fold tt ttDepth type stored. rewrite (Hhigh Hle), Hty.
      cbn match. rewrite ite_ltb_min, Hcut. reflexivity.
  - intros d s successors a b m0 m1 v Hpos Hsucc Hloop.
    cbn [miniMax].
    replace (total s <=? 0) with false by (symmetry; apply Z.leb_gt; lia).
    rewrite Hsucc, Hloop. reflexivity.
Qed.

Lemma childLoop_table_lookup_witness :
  let next := performMove (createGameState 1 (-1) 20) 5 in
  let m := store freshMem (hash next) 9 1 NODE_TYPE_EXACT in
  childLoop (miniMax 2) 3 [next] (-128) 127 (-1) m = Some (1, m).
Proof.
  intros next m.
  destruct (childLoop_table_lookup (miniMax 2) 3 next [] (-128) 127 (-1) m)
    as (_ & Hexact & _); [lia |].
  apply Hexact.
  - vm_compute. discriminate.
  - vm_compute. reflexivity.
Defined.

(** ** Search engine: scores stay in the range of game outcomes *)

Lemma tameTable_fresh : tameTable (transpositionTable freshMem).
Proof. intros h. left. reflexivity. Qed.

Lemma probe_empty (tt : gmap Z Z) (depth h alpha beta max : Z) :
  slot tt h = 0 -> probe tt depth h alpha beta max = ProbeSearch alpha beta.
Proof. intros Hs. unfold probe, getDepth. rewrite Hs. reflexivity. Qed.

(** What the getters make of a record packed as EXACT: a score of 0 or 1
    reads back as it is, a score of -1 reads back as an UPPER record with
    score 63. *)
Lemma getters_exact (tt : gmap Z Z) (h D v : Z) :
  uint8_range D -> outcomeScore v ->
  slot tt h = makeTTVal D v NODE_TYPE_EXACT ->
  getDepth tt h = D /\
  ((v = -1 /\ getNodeType tt h = 3 /\ getRating tt h = 63) \/
   (v <> -1 /\ getNodeType tt h = 1 /\ getRating tt h = v)).
Proof.
  intros HD Hv Hs.
  destruct (getters_of_word tt h D v NODE_TYPE_EXACT HD ltac:(unfold NODE_TYPE_EXACT; lia) Hs)
    as (-> & -> & ->).
  split; [reflexivity |].
  destruct Hv as [-> | [-> | ->]];
    [left | right | right]; repeat split; lia.
Qed.

(** The lookup on an EXACT-packed record, from a window (-128, beta): the
    record is passed over, or it ends the loop with its score 0 or 1, or
    (score -1) it lowers [beta] to 63 and the child is searched. *)
Lemma probe_exact (tt : gmap Z Z) (depth h D v beta max : Z) :
  uint8_range D -> outcomeScore v -> searchBeta beta ->
  slot tt h = makeTTVal D v NODE_TYPE_EXACT ->
  probe tt depth h (-128) beta max = ProbeSearch (-128) beta \/
  (v <> -1 /\ probe tt depth h (-128) beta max = ProbeReturn v) \/
  (v = -1 /\ probe tt depth h (-128) beta max = ProbeSearch (-128) 63).
Proof.
  intros HD Hv Hb Hs.
  destruct (getters_exact tt h D v HD Hv Hs) as (HgD & Hcase).
  unfold probe. cbv zeta. rewrite HgD.
  destruct ((0 <? D) && (depth <=? D)); [| left; reflexivity].
  destruct Hcase as [(Hv1 & -> & ->) | (Hv1 & -> & ->)].
  - right; right. split; [exact Hv1 |].
    destruct Hb as [-> | ->]; reflexivity.
  - right; left. split; [exact Hv1 | reflexivity].
Qed.

Lemma probe_tame (tt : gmap Z Z) (depth h beta max : Z) :
  tameSlot (slot tt h) -> searchBeta beta ->
  (exists v, probe tt depth h (-128) beta max = ProbeReturn v /\
             outcomeScore v) \/
  (exists beta', probe tt depth h (-128) beta max = ProbeSearch (-128) beta' /\
                 searchBeta beta').
Proof.
  intros [Hz | (D & v & HD & Hv & Hs)] Hb.
  - right. exists beta. split; [now apply probe_empty | exact Hb].
  - destruct (probe_exact tt depth h D v beta max HD Hv Hb Hs)
      as [Hp | [(_ & Hp) | (_ & Hp)]].
    + right. exists beta. auto.
    + left. exists v. auto.
    + right. exists 63. split; [exact Hp | left; reflexivity].
Qed.

(** The table write after the recursive call: in a window (-128, beta) a game
    outcome is neither a fail-low nor a fail-high, so it is packed as
    EXACT. *)
Lemma record_exact (m : Mem) (h depth val beta : Z) :
  outcomeScore val -> searchBeta beta ->
  record m h depth val (-128) beta = store m h depth val NODE_TYPE_EXACT.
Proof.
  intros Hv Hb. unfold record.
  replace (val <=? -128) with false
    by (symmetry; apply Z.leb_gt; unfold outcomeScore in Hv; lia).
  replace (beta <=? val) with false
    by (symmetry; apply Z.leb_gt; unfold outcomeScore, searchBeta in *; lia).
  reflexivity.
Qed.

Lemma tameTable_store (m : Mem) (h depth val : Z) :
  uint8_range depth -> outcomeScore val ->
  tameTable (transpositionTable m) ->
  tameTable (transpositionTable (store m h depth val NODE_TYPE_EXACT)).
Proof.
  intros HD Hv Ht k.
  destruct (Z.eq_dec k h) as [-> | Hne].
  - rewrite slot_store. right. exists depth, val. auto.
  - rewrite slot_store_ne by assumption. apply Ht.
Qed.

Lemma outcomeScore_neg (v : Z) : outcomeScore v -> to_int8 (- v) = - v /\ outcomeScore (- v).
Proof.
  intros Hv. split.
  - apply to_int8_id. unfold outcomeScore, int8_range in *. lia.
  - unfold outcomeScore in *. lia.
Qed.

Lemma performMove_playable (s : GameState) (move : Z) :
  isPlayer (activePlayer s) -> 1 <= move <= 6 ->
  playable (performMove s move).
Proof.
  intros Hp Hm. unfold playable, legalFace, performMove.
  cbn [lastMove total activePlayer winner].
  split; [exact Hm |]. split; [apply to_int8_range |]. split.
  - destruct Hp as [-> | ->]; [right | left]; reflexivity.
  - unfold outcomeScore.
    destruct (to_int8 (total s - move) <=? 0), Hp as [-> | ->];
      first [ left; reflexivity
            | right; left; reflexivity
            | right; right; reflexivity ].
Qed.

Lemma getPossibleStates_playable (s : GameState) :
  legalFace s -> isPlayer (activePlayer s) ->
  exists successors, getPossibleStates s = Some successors /\
                     length successors = 4%nat /\
                     Forall playable successors.
Proof.
  intros Hf Hp. unfold getPossibleStates.
  face_cases s Hf; rewrite Hface;
    (eexists; split; [reflexivity |]; split; [reflexivity |]);
    repeat (apply List.Forall_cons;
            [apply performMove_playable; [assumption | lia] |]);
    apply List.Forall_nil.
Qed.

Lemma tameResult_extend (m m1 : Mem) (r : option (Z * Mem)) :
  (exists new, trace m1 = new ++ trace m /\ Forall tameEvent new) ->
  tameResult m1 r -> tameResult m r.
Proof.
  intros (new1 & Ht1 & Hn1) (v & m' & Hr & Hv & Htab & new2 & Ht2 & Hn2).
  exists v, m'. repeat split; try assumption.
  exists (new2 ++ new1). split.
  - rewrite Ht2, Ht1. apply app_assoc.
  - apply List.Forall_app. split; assumption.
Qed.

Lemma tameResult_returning (m : Mem) (r : option (Z * Mem)) :
  tameResult m r ->
  tameResult m (match r with
                | None => None
                | Some (val, m') => returning val m'
                end).
Proof.
  intros (v & m' & -> & Hv & Htab & new & Ht & Hn).
  exists v, (mkMem (transpositionTable m') (EvReturn v :: trace m')).
  repeat split; try assumption.
  exists (EvReturn v :: new). cbn [trace]. split.
  - rewrite Ht. reflexivity.
  - apply List.Forall_cons; assumption.
Qed.

Section TameLoop.
Variable search : GameState -> Z -> Z -> Mem -> option (Z * Mem).
Variable depth : Z.
Hypothesis depth_byte : uint8_range depth.
Hypothesis search_tame :
  forall g beta m, playable g -> searchBeta beta ->
    tameTable (transpositionTable m) ->
    tameResult m (search g (-128) beta m).

Lemma childLoop_tame (gameStates : list GameState) :
  forall beta max m,
    Forall playable gameStates -> searchBeta beta -> outcomeScore max ->
    tameTable (transpositionTable m) ->
    tameResult m (childLoop search depth gameStates (-128) beta max m).
Proof.
  induction gameStates as [| g rest IH]; intros beta max m Hgs Hb Hmax Ht.
  - exists max, m. repeat split; try assumption.
    exists []. split; [reflexivity | apply List.Forall_nil].
  - apply List.Forall_cons_iff in Hgs as [Hg Hrest].
    destruct (probe_tame (transpositionTable m) depth (hash g) beta max
                (Ht (hash g)) Hb)
      as [(v & Hp & Hv) | (beta' & Hp & Hb')].
    + rewrite (childLoop_probe_return _ _ _ _ _ _ _ _ _ Hp).
      exists v, m. repeat split; try assumption.
      exists []. split; [reflexivity | apply List.Forall_nil].
    + rewrite (childLoop_probe_search _ _ _ _ _ _ _ _ _ _ Hp).
      unfold descend.
      destruct (search_tame g beta' m Hg Hb' Ht)
        as (r & m1 & -> & Hr & Ht1 & new & Htr & Hnew).
      destruct (outcomeScore_neg r Hr) as [-> Hnr].
      rewrite (record_exact m1 (hash g) depth (- r) beta' Hnr Hb').
      apply (tameResult_extend m (store m1 (hash g) depth (- r) NODE_TYPE_EXACT)).
      * exists (EvStore (hash g) depth (- r) NODE_TYPE_EXACT :: new).
        cbn [store trace]. split; [rewrite Htr; reflexivity |].
        apply List.Forall_cons; assumption.
      * apply IH; try assumption.
        -- unfold outcomeScore in *. lia.
        -- apply tameTable_store; assumption.
Qed.
End TameLoop.

(** From a window (-128, beta) with beta 63 or 127 and a tame table, a search
    of a playable configuration returns a game outcome, keeps the table tame
    and logs only game outcomes. *)
Lemma miniMax_tame (depth : nat) :
  (depth <= 255)%nat ->
  forall s beta m, playable s -> searchBeta beta ->
    tameTable (transpositionTable m) ->
    tameResult m (miniMax depth s (-128) beta m).
Proof.
  induction depth as [| depth' IH]; intros Hd s beta m Hs Hb Ht.
  - destruct Hs as (Hf & Htot & Hp & Hw).
    apply (tameResult_returning m (Some (_, m))).
    exists (to_int8 (activePlayer s * eval s)), m.
    repeat split; try assumption.
    + unfold eval, outcomeScore in *.
      destruct (total s <=? 0), Hp as [-> | ->], Hw as [-> | [-> | ->]];
        first [ left; reflexivity
              | right; left; reflexivity
              | right; right; reflexivity ].
    + exists []. split; [reflexivity | apply List.Forall_nil].
  - cbn [miniMax]. destruct (total s <=? 0) eqn:Hterm.
    + destruct Hs as (Hf & Htot & Hp & Hw).
      apply (tameResult_returning m (Some (_, m))).
      exists (to_int8 (activePlayer s * eval s)), m.
      repeat split; try assumption.
      * unfold eval, outcomeScore in *. rewrite Hterm.
        destruct Hp as [-> | ->], Hw as [-> | [-> | ->]];
          first [ left; reflexivity
                | right; left; reflexivity
                | right; right; reflexivity ].
      * exists []. split; [reflexivity | apply List.Forall_nil].
    + destruct Hs as (Hf & Htot & Hp & Hw).
      destruct (getPossibleStates_playable s Hf Hp) as (gs & -> & _ & Hgs).
      apply (tameResult_returning m).
      apply childLoop_tame; try assumption.
      * unfold uint8_range. lia.
      * intros g b m0. apply IH. lia.
      * left. reflexivity.
Qed.

(** C10.  A search of a playable configuration that starts from the
    zero-initialised table with the window (-128, 127) returns -1, 0 or 1;
    so does every call made during that search, and every score passed to a
    table write is -1, 0 or 1.  The trace of the search ends with the return
    of the root call. *)
Theorem search_scores_are_outcomes (depth : nat) (s : GameState) :
  (depth <= 255)%nat -> playable s ->
  exists v m',
    miniMax depth s (-128) 127 freshMem = Some (v, m') /\
    outcomeScore v /\
    (exists earlier, trace m' = EvReturn v :: earlier) /\
    (forall r, In (EvReturn r) (trace m') -> outcomeScore r) /\
    (forall hashVal d val type,
       In (EvStore hashVal d val type) (trace m') -> outcomeScore val).
Proof.
  intros Hd Hs.
  destruct (miniMax_tame depth Hd s 127 freshMem Hs
              ltac:(right; reflexivity) tameTable_fresh)
    as (v & m' & Hr & Hv & _ & new & Htr & Hnew).
  exists v, m'. cbn [freshMem trace] in Htr. rewrite app_nil_r in Htr.
  subst new. rewrite List.Forall_forall in Hnew.
  repeat split; try assumption.
  - destruct depth as [| depth']; cbn [miniMax] in Hr.
    + injection Hr as <- <-. eexists. reflexivity.
    + destruct (total s <=? 0).
      * injection Hr as <- <-. eexists. reflexivity.
      * destruct (getPossibleStates s) as [gs |]; [| discriminate].
        destruct (childLoop _ _ _ _ _ _ _) as [[v0 m0] |]; [| discriminate].
        injection Hr as <- <-. eexists. reflexivity.
  - intros r Hin. apply (Hnew _ Hin).
  - intros hashVal d val type Hin. apply (Hnew _ Hin).
Qed.

Lemma search_scores_are_outcomes_witness :
  exists v m',
    miniMax 100 (createGameState 1 (-1) 66) (-128) 127 freshMem
      = Some (v, m') /\
    outcomeScore v.
Proof.
  destruct (search_scores_are_outcomes 100 (createGameState 1 (-1) 66))
    as (v & m' & Hr & Hv & _).
  - lia.
  - unfold playable, legalFace, int8_range, isPlayer, outcomeScore. cbn. lia.
  - exists v, m'. split; assumption.
Defined.

(** ** Move selector *)

Lemma bestLoop_runningBest (nextPossible : list GameState) :
  forall i max maxI m,
    bestLoop nextPossible i max maxI m
    = match successorScores nextPossible m with
      | None => None
      | Some (scores, m') => Some (runningBest scores i max maxI, m')
      end.
Proof.
  induction nextPossible as [| next rest IH]; intros i max maxI m.
  - reflexivity.
  - cbn [bestLoop successorScores].
    destruct (miniMax 100 next (-128) 127 m) as [[r m1] |]; [| reflexivity].
    destruct (max <=? to_int8 (- r)) eqn:Hcmp; rewrite IH;
      destruct (successorScores rest m1) as [[scores m2] |];
      cbn [runningBest]; rewrite ?Hcmp; reflexivity.
Qed.

(** Either no score reached the initial maximum, or the index returned is
    that of the last score that is at least as large as every other. *)
Lemma runningBest_last (scores : list Z) :
  forall i max maxI,
    let '(best, bestI) := runningBest scores i max maxI in
    max <= best /\ Forall (fun e => e <= best) scores /\
    ((best = max /\ bestI = maxI /\ Forall (fun e => e < max) scores) \/
     (exists k : nat,
        bestI = i + Z.of_nat k /\ scores !! k = Some best /\
        forall (j : nat) e, (k < j)%nat -> scores !! j = Some e -> e < best)).
Proof.
  induction scores as [| e rest IH]; intros i max maxI.
  - cbn. repeat split; [lia | apply List.Forall_nil |].
    left. repeat split. apply List.Forall_nil.
  - cbn [runningBest]. destruct (Z.leb_spec max e) as [Hle | Hgt].
    + specialize (IH (i + 1) e i).
      destruct (runningBest rest (i + 1) e i) as [best bestI].
      destruct IH as (Hb & Hall & Hcase).
      split; [lia |]. split; [apply List.Forall_cons; [lia | exact Hall] |].
      right. destruct Hcase as [(-> & -> & Hlt) | (k & -> & Hk & Hlater)].
      * exists 0%nat. split; [lia |]. split; [reflexivity |].
        intros j e' Hj Hje. destruct j as [| j']; [lia |].
        cbn in Hje. rewrite List.Forall_forall in Hlt.
        apply Hlt. apply list_elem_of_In. eapply list_elem_of_lookup_2. exact Hje.
      * exists (S k). split; [lia |]. split; [exact Hk |].
        intros j e' Hj Hje. destruct j as [| j']; [lia |].
        cbn in Hje. apply (Hlater j'); [lia | exact Hje].
    + specialize (IH (i + 1) max maxI).
      destruct (runningBest rest (i + 1) max maxI) as [best bestI].
      destruct IH as (Hb & Hall & Hcase).
      split; [lia |]. split; [apply List.Forall_cons; [lia | exact Hall] |].
      destruct Hcase as [(-> & -> & Hlt) | (k & -> & Hk & Hlater)].
      * left. repeat split. apply List.Forall_cons; [lia | exact Hlt].
      * right. exists (S k). split; [lia |]. split; [exact Hk |].
        intros j e' Hj Hje. destruct j as [| j']; [lia |].
        cbn in Hje. apply (Hlater j'); [lia | exact Hje].
Qed.

Lemma successorScores_tame (nextPossible : list GameState) :
  forall m,
    Forall playable nextPossible -> tameTable (transpositionTable m) ->
    exists scores m',
      successorScores nextPossible m = Some (scores, m') /\
      Forall outcomeScore scores /\
      length scores = length nextPossible /\
      tameTable (transpositionTable m').
Proof.
  induction nextPossible as [| next rest IH]; intros m Hgs Ht.
  - exists [], m. repeat split; [apply List.Forall_nil | exact Ht].
  - apply List.Forall_cons_iff in Hgs as [Hg Hrest].
    destruct (miniMax_tame 100 ltac:(lia) next 127 m Hg
                ltac:(right; reflexivity) Ht)
      as (r & m1 & Hr & Hv & Ht1 & _).
    destruct (IH m1 Hrest Ht1) as (scores & m2 & Hs & Hall & Hlen & Ht2).
    destruct (outcomeScore_neg r Hv) as [Hneg Hnv].
    exists (- r :: scores), m2. cbn [successorScores].
    rewrite Hr, Hs, Hneg. repeat split.
    + apply List.Forall_cons; assumption.
    + cbn [length]. now rewrite Hlen.
    + exact Ht2.
Qed.

(** C9.  For a configuration with [lastMove] in 1..6 and a player to move,
    called on a table left by earlier searches (a tame one; the
    zero-initialised table is tame and every search keeps it so),
    [makeBestMove] scores the four successors in generation order with the
    depth-100 search and returns the successor whose score is the maximum;
    when several successors reach the maximum it returns the last of them in
    generation order. *)
Theorem makeBestMove_last_maximum (s : GameState) (m : Mem) :
  legalFace s -> isPlayer (activePlayer s) ->
  tameTable (transpositionTable m) ->
  exists successors scores m' (i : nat) chosen best,
    getPossibleStates s = Some successors /\
    length successors = 4%nat /\
    successorScores successors m = Some (scores, m') /\
    makeBestMove s m = Some (chosen, m') /\
    successors !! i = Some chosen /\
    scores !! i = Some best /\
    Forall (fun e => e <= best) scores /\
    (forall (j : nat) e, (i < j)%nat -> scores !! j = Some e -> e < best).
Proof.
  intros Hf Hp Ht.
  destruct (getPossibleStates_playable s Hf Hp) as (gs & Hgs & Hlen & Hplay).
  destruct (successorScores_tame gs m Hplay Ht)
    as (scores & m' & Hs & Hall & Hslen & _).
  pose proof (runningBest_last scores 0 (-2) 255) as Hrb.
  unfold makeBestMove. rewrite Hgs, bestLoop_runningBest, Hs.
  destruct (runningBest scores 0 (-2) 255) as [best bestI].
  destruct Hrb as (Hb & Hle & [(-> & -> & Hlt) | (k & -> & Hk & Hlater)]).
  - exfalso. destruct scores as [| e rest]; [cbn in Hslen; lia |].
    apply List.Forall_cons_iff in Hlt as [Hlt _].
    apply List.Forall_cons_iff in Hall as [He _].
    unfold outcomeScore in He. lia.
  - assert (Hbest : outcomeScore best).
    { rewrite List.Forall_forall in Hall. apply Hall.
      apply list_elem_of_In. eapply list_elem_of_lookup_2. exact Hk. }
    replace (best =? -2) with false
      by (symmetry; apply Z.eqb_neq; unfold outcomeScore in Hbest; lia).
    replace (Z.to_nat (0 + Z.of_nat k)) with k by lia.
    assert (Hkl : (k < length gs)%nat).
    { rewrite <- Hslen. eapply lookup_lt_Some. exact Hk. }
    destruct (lookup_lt_is_Some_2 gs k Hkl) as [chosen Hch].
    exists gs, scores, m', k, chosen, best.
    rewrite Hch. cbn [option_map]. repeat split; assumption.
Qed.

Lemma makeBestMove_last_maximum_witness :
  exists chosen m', makeBestMove (createGameState 1 (-1) 7) freshMem
                    = Some (chosen, m').
Proof.
  destruct (makeBestMove_last_maximum (createGameState 1 (-1) 7) freshMem)
    as (gs & scores & m' & i & chosen & best & _ & _ & _ & Hmb & _).
  - unfold legalFace. cbn. lia.
  - right. reflexivity.
  - intros h. left. reflexivity.
  - exists chosen, m'. exact Hmb.
Defined.

(** ** Pruning equivalence *)

(** C1, refuted as stated: from total 12 with face 1 showing, at depth 5, the
    reference minimax runs out of depth on every line and answers 0, while
    the search returns 1.  A record written higher up in the tree, with a
    stored depth of at least the depth now required, stands in for the
    search of its position; it carries the result of a deeper search than
    the reference is allowed. *)
Lemma pruningEquivalence_fails :
  ~ pruningEquivalence 5 (createGameState 1 (-1) 12).
Proof. unfold pruningEquivalence. vm_compute. discriminate. Qed.

(** The two also differ the other way round: from total 11 with face 2
    showing, at depth 4, the reference minimax finds the win of the player
    to move and the search returns 0, because an EXACT record of one child
    ends the loop of its parent before the winning child is looked at. *)
Lemma search_misses_bounded_win :
  option_map fst (miniMax 4 (createGameState 2 (-1) 11) (-128) 127 freshMem)
    = Some 0 /\
  Reference.fullMinimax 4 (createGameState 2 (-1) 11) = 1.
Proof. split; vm_compute; reflexivity. Qed.

Lemma settled_playable (s : GameState) : settled s -> playable s.
Proof.
  intros (Hf & Ht & Hp & Hw). unfold playable.
  split; [exact Hf |]. split; [exact Ht |]. split; [exact Hp |].
  rewrite Hw. unfold outcomeScore, isPlayer in *.
  destruct (total s <=? 0); lia.
Qed.

Lemma settled_inType (s : GameState) : settled s -> inType s.
Proof.
  intros (Hf & Ht & Hp & Hw).
  unfold inType, legalFace, uint8_range, int8_range, isPlayer in *.
  assert (Hwr : -1 <= winner s <= 1)
    by (rewrite Hw; destruct (total s <=? 0); lia).
  lia.
Qed.

(** On a configuration still in play, a move 1..6 wraps nothing: the code
    and the specification's [applyMove] agree. *)
Lemma performMove_applyMove (s : GameState) (move : Z) :
  isPlayer (activePlayer s) -> 0 < total s <= 127 -> 1 <= move <= 6 ->
  performMove s move = Reference.applyMove s move.
Proof.
  intros Hp Ht Hm. unfold performMove, Reference.applyMove. cbv zeta.
  rewrite !(to_int8_id (total s - move)) by (unfold int8_range; lia).
  rewrite (to_int8_id (- activePlayer s))
    by (unfold int8_range; destruct Hp as [-> | ->]; lia).
  f_equal.
  destruct (total s - move <=? 0); cbn [b2z].
  - rewrite Z.mul_1_l. apply to_int8_id.
    unfold int8_range; destruct Hp as [-> | ->]; lia.
  - reflexivity.
Qed.

Lemma applyMove_settled (s : GameState) (move : Z) :
  isPlayer (activePlayer s) -> 0 < total s <= 127 -> 1 <= move <= 6 ->
  settled (Reference.applyMove s move) /\
  total (Reference.applyMove s move) < total s.
Proof.
  intros Hp Ht Hm. unfold settled, legalFace, Reference.applyMove.
  cbn [lastMove total activePlayer winner].
  split; [| lia].
  split; [exact Hm |]. split; [unfold int8_range; lia |].
  split; [| reflexivity].
  destruct Hp as [-> | ->]; [right | left]; reflexivity.
Qed.

(** The successors, in the specification's order and in the code's. *)
Lemma successors_cases (s : GameState) :
  legalFace s ->
  exists a b c d,
    (1 <= a <= 6 /\ 1 <= b <= 6 /\ 1 <= c <= 6 /\ 1 <= d <= 6) /\
    Reference.legalSuccessors s
    = [Reference.applyMove s a; Reference.applyMove s b;
       Reference.applyMove s c; Reference.applyMove s d] /\
    getPossibleStates s
    = Some [performMove s d; performMove s c;
            performMove s b; performMove s a].
Proof.
  intros Hf. unfold Reference.legalSuccessors, getPossibleStates.
  face_cases s Hf; rewrite Hface;
    [ exists 2, 3, 4, 5 | exists 1, 3, 4, 6 | exists 1, 2, 5, 6
    | exists 1, 2, 5, 6 | exists 1, 3, 4, 6 | exists 2, 3, 4, 5 ];
    (split; [lia | split; reflexivity]).
Qed.

Lemma fullMinimax_terminal (depth : nat) (s : GameState) :
  total s <= 0 -> Reference.fullMinimax depth s = activePlayer s * winner s.
Proof.
  intros Ht. apply Z.leb_le in Ht.
  destruct depth; cbn [Reference.fullMinimax];
    unfold Reference.evaluateTerminal, Reference.terminal; now rewrite Ht.
Qed.

(** Once the depth covers the total, more depth changes nothing, and the
    value is a win for one of the players. *)
Lemma fullMinimax_stable (n : nat) :
  forall (d : nat) (s : GameState),
    settled s -> total s <= Z.of_nat n -> (n <= d)%nat ->
    Reference.fullMinimax d s = Reference.fullMinimax n s /\
    isPlayer (Reference.fullMinimax n s).
Proof.
  assert (Hterm : forall d n' s, settled s -> total s <= 0 ->
            Reference.fullMinimax d s = Reference.fullMinimax n' s /\
            isPlayer (Reference.fullMinimax n' s)).
  { intros d n' s (Hf & Ht & Hp & Hw) Hle.
    rewrite !fullMinimax_terminal by assumption.
    split; [reflexivity |].
    rewrite Hw. replace (total s <=? 0) with true by (symmetry; apply Z.leb_le; lia).
    destruct Hp as [-> | ->]; left; reflexivity. }
  induction n as [| n' IH]; intros d s Hs Htot Hd.
  - apply Hterm; [assumption | lia].
  - destruct (Z.leb_spec (total s) 0) as [Hle | Hpos];
      [apply Hterm; assumption |].
    destruct d as [| d']; [lia |].
    pose proof Hs as (Hf & Ht & Hp & Hw).
    cbn [Reference.fullMinimax]. unfold Reference.terminal.
    replace (total s <=? 0) with false by (symmetry; apply Z.leb_gt; lia).
    destruct (successors_cases s Hf)
      as (a & b & c & e & (Ha & Hb & Hc & He) & -> & _).
    cbn [List.map].
    assert (Hchild : forall mv, 1 <= mv <= 6 ->
              Reference.fullMinimax d' (Reference.applyMove s mv)
              = Reference.fullMinimax n' (Reference.applyMove s mv) /\
              isPlayer (Reference.fullMinimax n' (Reference.applyMove s mv))).
    { intros mv Hmv.
      destruct (applyMove_settled s mv Hp ltac:(unfold int8_range in Ht; lia) Hmv)
        as [Hset Hlt].
      apply IH; [exact Hset | lia | lia]. }
    destruct (Hchild a Ha) as [-> Hva], (Hchild b Hb) as [-> Hvb],
             (Hchild c Hc) as [-> Hvc], (Hchild e He) as [-> Hve].
    split; [reflexivity |].
    unfold Reference.maximum, Reference.MIN_SCORE, isPlayer in *.
    cbn [List.fold_right]. lia.
Qed.

Lemma fullMinimax_outcome (d : nat) (s : GameState) :
  settled s -> total s <= Z.of_nat d ->
  Reference.fullMinimax d s = outcome s /\ isPlayer (outcome s).
Proof.
  intros Hs Ht. unfold outcome.
  apply fullMinimax_stable; [exact Hs | lia | lia].
Qed.

Lemma soundTable_fresh : soundTable (transpositionTable freshMem).
Proof. intros c _. left. reflexivity. Qed.

Lemma soundTable_store (m : Mem) (g : GameState) (depth : Z) :
  uint8_range depth -> settled g ->
  soundTable (transpositionTable m) ->
  soundTable (transpositionTable
                (store m (hash g) depth (- outcome g) NODE_TYPE_EXACT)).
Proof.
  intros HD Hg Ht c Hc.
  destruct (Z.eq_dec (hash c) (hash g)) as [Heq | Hne].
  - assert (c = g) as ->
      by (apply hash_eq_inv; auto using settled_inType).
    rewrite slot_store. right. exists depth. auto.
  - rewrite slot_store_ne by assumption. apply Ht, Hc.
Qed.

Lemma isPlayer_outcomeScore (v : Z) : isPlayer v -> outcomeScore (- v).
Proof. unfold isPlayer, outcomeScore. lia. Qed.

Lemma fold_left_max_top (l : list Z) :
  forall a, a <= 1 -> Forall (fun v => v <= 1) l -> (a = 1 \/ In 1 l) ->
            List.fold_left Z.max l a = 1.
Proof.
  induction l as [| v rest IH]; intros a Ha Hl Hin.
  - destruct Hin as [-> | []]. reflexivity.
  - apply List.Forall_cons_iff in Hl as [Hv Hrest]. cbn [List.fold_left].
    apply IH; [lia | exact Hrest |].
    destruct Hin as [-> | [-> | Hin]]; [left; lia | left; lia | right; exact Hin].
Qed.

Lemma negated_outcomes_le (budget : Z) (gameStates : list GameState) :
  Forall (fun g => settled g /\ total g <= budget) gameStates ->
  Forall (fun v => v <= 1) (List.map (fun g => - outcome g) gameStates).
Proof.
  induction 1 as [| g rest [Hg _] _ IH]; cbn [List.map].
  - apply List.Forall_nil.
  - apply List.Forall_cons; [| exact IH].
    destruct (fullMinimax_outcome (Z.to_nat (total g)) g Hg ltac:(lia))
      as [_ Hog].
    unfold isPlayer in Hog. lia.
Qed.

Section FullDepthLoop.
Variable search : GameState -> Z -> Z -> Mem -> option (Z * Mem).
Variable depth : Z.
Variable budget : Z.
Hypothesis depth_byte : uint8_range depth.
Hypothesis search_full :
  forall g beta m, settled g -> total g <= budget -> searchBeta beta ->
    soundTable (transpositionTable m) ->
    exists m', search g (-128) beta m = Some (outcome g, m') /\
               soundTable (transpositionTable m').

(** When every child is searched deep enough, the loop ends with the
    largest of the running maximum and the children's negated values. *)
Lemma childLoop_full (gameStates : list GameState) :
  forall beta max m,
    Forall (fun g => settled g /\ total g <= budget) gameStates ->
    searchBeta beta -> isPlayer max ->
    soundTable (transpositionTable m) ->
    exists m',
      childLoop search depth gameStates (-128) beta max m
      = Some (List.fold_left Z.max
                (List.map (fun g => - outcome g) gameStates) max, m') /\
      soundTable (transpositionTable m').
Proof.
  induction gameStates as [| g rest IH]; intros beta max m Hgs Hb Hmax Ht.
  - exists m. split; [reflexivity | exact Ht].
  - apply List.Forall_cons_iff in Hgs as [[Hg Hgt] Hrest].
    destruct (fullMinimax_outcome (Z.to_nat (total g)) g Hg ltac:(lia))
      as [_ Hog].
    pose proof (isPlayer_outcomeScore _ Hog) as Hnv.
    assert (Hsearch : forall beta', searchBeta beta' ->
              exists m',
                descend search depth g rest (-128) beta' max m
                = Some (List.fold_left Z.max
                          (List.map (fun g => - outcome g) (g :: rest)) max, m') /\
                soundTable (transpositionTable m')).
    { intros beta' Hb'. unfold descend.
      destruct (search_full g beta' m Hg Hgt Hb' Ht) as (m1 & -> & Ht1).
      rewrite (to_int8_id (- outcome g))
        by (unfold int8_range, outcomeScore in *; lia).
      rewrite (record_exact m1 (hash g) depth (- outcome g) beta' Hnv Hb').
      cbn [List.map List.fold_left].
      apply IH; try assumption.
      - unfold isPlayer in *. lia.
      - apply soundTable_store; assumption. }
    destruct (Ht g Hg) as [Hz | (D & HD & Hs)].
    + rewrite (childLoop_probe_search _ _ _ _ _ _ _ _ _ _
                 (probe_empty _ depth _ (-128) beta max Hz)).
      apply Hsearch, Hb.
    + destruct (probe_exact _ depth _ D _ beta max HD Hnv Hb Hs)
        as [Hp | [(Hne & Hp) | (_ & Hp)]].
      * rewrite (childLoop_probe_search _ _ _ _ _ _ _ _ _ _ Hp).
        apply Hsearch, Hb.
      * rewrite (childLoop_probe_return _ _ _ _ _ _ _ _ _ Hp).
        exists m. split; [| exact Ht]. do 2 f_equal.
        assert (Hone : - outcome g = 1) by (unfold isPlayer in Hog; lia).
        etransitivity; [exact Hone |].
        symmetry. apply fold_left_max_top.
        -- unfold isPlayer in Hmax. lia.
        -- apply (negated_outcomes_le budget (g :: rest)).
           apply List.Forall_cons; [split |]; assumption.
        -- right. left. exact Hone.
      * rewrite (childLoop_probe_search _ _ _ _ _ _ _ _ _ _ Hp).
        apply Hsearch. left. reflexivity.
Qed.
End FullDepthLoop.

Lemma base_value (s : GameState) :
  playable s ->
  to_int8 (activePlayer s * eval s)
  = activePlayer s * Reference.evaluateTerminal s.
Proof.
  intros (_ & _ & Hp & Hw).
  unfold eval, Reference.evaluateTerminal, Reference.terminal.
  destruct (total s <=? 0); cbn [b2z].
  - rewrite Z.mul_1_l.
    rewrite (to_int8_id (winner s))
      by (unfold int8_range, outcomeScore in *; lia).
    apply to_int8_id. unfold int8_range, outcomeScore, isPlayer in *.
    destruct Hp as [-> | ->]; lia.
  - rewrite Z.mul_0_l. replace (to_int8 0) with 0 by reflexivity.
    rewrite Z.mul_0_r. reflexivity.
Qed.

(** With a depth that covers the total, from a window (-128, beta) and a
    sound table, the search returns the value of the reference minimax and
    leaves the table sound. *)
Lemma miniMax_full (depth : nat) :
  (depth <= 255)%nat ->
  forall s beta m,
    playable s -> total s <= Z.of_nat depth -> searchBeta beta ->
    soundTable (transpositionTable m) ->
    exists m',
      miniMax depth s (-128) beta m
      = Some (Reference.fullMinimax depth s, m') /\
      soundTable (transpositionTable m').
Proof.
  induction depth as [| depth' IH]; intros Hd s beta m Hs Htot Hb Ht.
  - cbn [miniMax Reference.fullMinimax]. rewrite (base_value s Hs).
    eexists. split; [reflexivity | exact Ht].
  - cbn [miniMax Reference.fullMinimax]. unfold Reference.terminal.
    destruct (Z.leb_spec (total s) 0) as [Hle | Hpos].
    + rewrite (base_value s Hs).
      eexists. split; [reflexivity | exact Ht].
    + pose proof Hs as (Hf & Hrange & Hp & _).
      assert (Hplay : 0 < total s <= 127) by (unfold int8_range in Hrange; lia).
      destruct (successors_cases s Hf)
        as (a & b & c & e & (Ha & Hb' & Hc & He) & -> & ->).
      rewrite !performMove_applyMove by assumption.
      assert (Hchild : forall mv, 1 <= mv <= 6 ->
                settled (Reference.applyMove s mv) /\
                total (Reference.applyMove s mv) <= Z.of_nat depth').
      { intros mv Hmv.
        destruct (applyMove_settled s mv Hp Hplay Hmv) as [Hset Hlt].
        split; [exact Hset | lia]. }
      assert (Hbyte : uint8_range (Z.of_nat (S depth')))
        by (unfold uint8_range; lia).
      assert (Hrec : forall g beta0 m0,
                settled g -> total g <= Z.of_nat depth' -> searchBeta beta0 ->
                soundTable (transpositionTable m0) ->
                exists m',
                  miniMax depth' g (-128) beta0 m0 = Some (outcome g, m') /\
                  soundTable (transpositionTable m')).
      { intros g beta0 m0 Hg Hgt Hb0 Ht0.
        destruct (fullMinimax_outcome depth' g Hg Hgt) as [<- _].
        apply IH; [lia | now apply settled_playable | exact Hgt
                  | exact Hb0 | exact Ht0]. }
      assert (Hall : Forall (fun g => settled g /\ total g <= Z.of_nat depth')
                [Reference.applyMove s e; Reference.applyMove s c;
                 Reference.applyMove s b; Reference.applyMove s a]).
      { repeat (apply List.Forall_cons; [apply Hchild; assumption |]).
        apply List.Forall_nil. }
      destruct (childLoop_full (miniMax depth') (Z.of_nat (S depth'))
                  (Z.of_nat depth') Hbyte Hrec _ beta (-1) m Hall Hb
                  ltac:(right; reflexivity) Ht)
        as (m1 & -> & Ht1).
      unfold returning. eexists.
      split; [apply f_equal; apply (f_equal2 pair); [| reflexivity] | exact Ht1].
      cbn [List.map List.fold_left].
      destruct (Hchild a Ha) as [Hsa Hta], (Hchild b Hb') as [Hsb Htb],
               (Hchild c Hc) as [Hsc Htc], (Hchild e He) as [Hse Hte].
      destruct (fullMinimax_outcome depth' _ Hsa Hta) as [-> Hoa],
               (fullMinimax_outcome depth' _ Hsb Htb) as [-> Hob],
               (fullMinimax_outcome depth' _ Hsc Htc) as [-> Hoc],
               (fullMinimax_outcome depth' _ Hse Hte) as [-> Hoe].
      clear - Hoa Hob Hoc Hoe.
      unfold Reference.maximum, Reference.MIN_SCORE, isPlayer in *.
      cbn [List.fold_right]. lia.
Qed.

(** C1, amended.  For a playable configuration and a depth (a [uint8]) that
    is at least the configuration's total, so that no line of play runs out
    of depth, the search with the table, started from the zero-initialised
    table and the window (-128, 127), returns the score of the unpruned,
    table-free minimax over the same depth. *)
Theorem pruningEquivalence_full_depth (depth : nat) (s : GameState) :
  (depth <= 255)%nat -> playable s -> total s <= Z.of_nat depth ->
  pruningEquivalence depth s.
Proof.
  intros Hd Hs Ht. unfold pruningEquivalence.
  destruct (miniMax_full depth Hd s 127 freshMem Hs Ht
              ltac:(right; reflexivity) soundTable_fresh) as (m' & -> & _).
  reflexivity.
Qed.

Lemma pruningEquivalence_full_depth_witness :
  pruningEquivalence 100 (createGameState 1 (-1) 66).
Proof.
  apply (pruningEquivalence_full_depth 100 (createGameState 1 (-1) 66)).
  - lia.
  - unfold playable, legalFace, int8_range, isPlayer, outcomeScore. cbn. lia.
  - cbn. lia.
Defined.

(** ** More on the packed records *)

Lemma store_readback_witness :
  let tt := transpositionTable (store freshMem 9 100 1 NODE_TYPE_LOWER) in
  getDepth tt 9 = 100 /\ getNodeType tt 9 = NODE_TYPE_LOWER /\ getRating tt 9 = 1.
Proof.
  apply (store_readback freshMem 9 100 1 NODE_TYPE_LOWER);
    unfold uint8_range, NODE_TYPE_LOWER; lia.
Defined.

Lemma low_byte_fields (type e : Z) :
  0 <= type <= 3 -> 0 <= e <= 255 ->
  Z.lor (type * 64) e / 64 = Z.lor type (e / 64) /\
  Z.lor (type * 64) e mod 64 = e mod 64.
Proof.
  intros HT He. split.
  - rewrite <- !(Z.shiftr_div_pow2 _ 6) by lia.
    rewrite Z.shiftr_lor. f_equal.
    rewrite Z.shiftr_div_pow2 by lia. change (2 ^ 6) with 64.
    apply Z.div_mul. lia.
  - change 64 with (2 ^ 6) at 2 3. rewrite <- !Z.land_ones by lia.
    rewrite Z.land_lor_distr_l.
    replace (Z.land (type * 64) (Z.ones 6)) with 0; [apply Z.lor_0_l |].
    rewrite Z.land_ones by lia. change (2 ^ 6) with 64.
    symmetry. apply Z.mod_mul. lia.
Qed.

(** What a record reads back as, whatever score was packed: the depth is the
    stored depth, the score is the stored score modulo 64, and the bound type
    is the stored type or-ed with the two top bits of the score's byte. *)
Theorem store_readback_any_score (m : Mem) (hashVal depth val type : Z) :
  uint8_range depth -> 0 <= type <= 3 ->
  let tt := transpositionTable (store m hashVal depth val type) in
  getDepth tt hashVal = depth /\
  getNodeType tt hashVal = Z.lor type (to_uint8 val / 64) /\
  getRating tt hashVal = val mod 64.
Proof.
  intros HD HT tt.
  destruct (getters_of_word tt hashVal depth val type HD HT
              (slot_store m hashVal depth val type)) as (-> & -> & ->).
  pose proof (to_uint8_range val) as He. unfold uint8_range in He.
  destruct (low_byte_fields type (to_uint8 val) HT He) as [-> ->].
  split; [reflexivity |]. split; [reflexivity |].
  assert (Hmod : to_uint8 val mod 64 = val mod 64).
  { unfold to_uint8. Z.div_mod_to_equations. lia. }
  rewrite Hmod. apply to_int8_id.
  unfold int8_range. pose proof (Z.mod_pos_bound val 64). lia.
Qed.

Lemma store_readback_any_score_witness :
  let tt := transpositionTable (store freshMem 9 7 (-3) NODE_TYPE_EXACT) in
  getDepth tt 9 = 7 /\ getNodeType tt 9 = 3 /\ getRating tt 9 = 61.
Proof.
  apply (store_readback_any_score freshMem 9 7 (-3) NODE_TYPE_EXACT);
    unfold uint8_range, NODE_TYPE_EXACT; lia.
Defined.

(** ** More on the state encoder *)

(** Each byte of the key holds one field: the total, the player and the
    winner biased by 128 in the three low bytes, the face in the top byte. *)
Theorem hash_bytes (s : GameState) :
  inType s ->
  Z.land (hash s) 255 = total s + 128 /\
  Z.land (Z.shiftr (hash s) 8) 255 = activePlayer s + 128 /\
  Z.land (Z.shiftr (hash s) 16) 255 = winner s + 128 /\
  Z.shiftr (hash s) 24 = lastMove s.
Proof.
  intros Hs. rewrite (hash_sum s Hs).
  destruct Hs as (Hm & Ht & Hp & Hw). unfold_ints.
  rewrite !Z.shiftr_div_pow2 by lia.
  change 255 with (Z.ones 8). rewrite !Z.land_ones by lia.
  change (2 ^ 8) with 256. change (2 ^ 16) with 65536.
  change (2 ^ 24) with 16777216.
  repeat split; Z.div_mod_to_equations; lia.
Qed.

Lemma hash_bytes_witness :
  Z.land (hash (mkGameState 3 (-5) 1 1)) 255 = 123 /\
  Z.shiftr (hash (mkGameState 3 (-5) 1 1)) 24 = 3.
Proof.
  destruct (hash_bytes (mkGameState 3 (-5) 1 1)) as (H1 & _ & _ & H4).
  - unfold inType, uint8_range, int8_range. cbn. lia.
  - split; [exact H1 | exact H4].
Defined.

(** ** More on the move generator *)

(** The successors are [performMove] applied to four distinct faces, none
    of them the face shown or its complement to seven. *)
Lemma successors_moves (s : GameState) :
  legalFace s ->
  exists moves : list Z,
    getPossibleStates s = Some (List.map (performMove s) moves) /\
    length moves = 4%nat /\ List.NoDup moves /\
    Forall (fun move => 1 <= move <= 6 /\ move <> lastMove s /\
                        move + lastMove s <> 7) moves /\
    (forall move, 1 <= move <= 6 -> move <> lastMove s ->
                  move + lastMove s <> 7 -> In move moves).
Proof.
  intros Hf. unfold getPossibleStates.
  face_cases s Hf; rewrite Hface;
    [ exists [5; 4; 3; 2] | exists [6; 4; 3; 1] | exists [6; 5; 2; 1]
    | exists [6; 5; 2; 1] | exists [6; 4; 3; 1] | exists [5; 4; 3; 2] ];
    (split; [reflexivity |]; split; [reflexivity |]; split;
     [ repeat (apply List.NoDup_cons; [cbn [In]; lia |]); apply List.NoDup_nil
     | split;
       [ repeat (apply List.Forall_cons; [lia |]); apply List.Forall_nil
       | intros move Hr Hne Hsum; cbn [In]; lia ] ]).
Qed.

Lemma performMove_inType (s : GameState) (move : Z) :
  uint8_range move -> inType (performMove s move).
Proof.
  intros Hm. unfold inType, performMove. cbn [lastMove total activePlayer winner].
  repeat split; try apply Hm; apply to_int8_range.
Qed.

(** The four successors occupy four different slots of the table, whatever
    the fields of the configuration they come from. *)
Theorem sibling_keys_distinct (s : GameState) :
  legalFace s ->
  exists successors : list GameState,
    getPossibleStates s = Some successors /\
    List.NoDup (List.map hash successors).
Proof.
  intros Hf.
  destruct (successors_moves s Hf) as (moves & -> & _ & Hnd & Hall & _).
  eexists. split; [reflexivity |].
  rewrite List.map_map.
  apply List.NoDup_map_NoDup_ForallPairs; [| exact Hnd].
  intros a b Ha Hb Heq.
  rewrite List.Forall_forall in Hall.
  pose proof (Hall a Ha) as (Hra & _). pose proof (Hall b Hb) as (Hrb & _).
  apply hash_eq_inv in Heq;
    [| apply performMove_inType; unfold uint8_range; lia ..].
  apply (f_equal lastMove) in Heq. exact Heq.
Qed.

Lemma sibling_keys_distinct_witness :
  exists successors : list GameState,
    getPossibleStates (createGameState 4 1 30) = Some successors /\
    List.NoDup (List.map hash successors).
Proof.
  apply (sibling_keys_distinct (createGameState 4 1 30)).
  unfold legalFace. cbn. lia.
Defined.

(** A face and its complement to seven allow the same moves, and the
    successors depend on neither the face shown beyond that nor the winner
    field. *)
Theorem getPossibleStates_complement (s1 s2 : GameState) :
  legalFace s1 ->
  lastMove s1 + lastMove s2 = 7 ->
  total s1 = total s2 -> activePlayer s1 = activePlayer s2 ->
  getPossibleStates s1 = getPossibleStates s2.
Proof.
  intros Hf Hsum Ht Hp. unfold getPossibleStates.
  face_cases s1 Hf; rewrite Hface in *;
    [ replace (lastMove s2) with 6 by lia | replace (lastMove s2) with 5 by lia
    | replace (lastMove s2) with 4 by lia | replace (lastMove s2) with 3 by lia
    | replace (lastMove s2) with 2 by lia | replace (lastMove s2) with 1 by lia ];
    unfold performMove; rewrite Ht, Hp; reflexivity.
Qed.

Lemma getPossibleStates_complement_witness :
  getPossibleStates (mkGameState 2 20 1 0)
  = getPossibleStates (mkGameState 5 20 1 1).
Proof.
  apply (getPossibleStates_complement (mkGameState 2 20 1 0) (mkGameState 5 20 1 1));
    [unfold legalFace; cbn; lia | reflexivity ..].
Defined.

Lemma getPossibleStates_illegal (s : GameState) :
  ~ legalFace s -> getPossibleStates s = None.
Proof.
  intros Hn. unfold getPossibleStates, legalFace in *.
  destruct (lastMove s) as [| p | p]; try reflexivity.
  destruct p as [[[p | p |] | [p | p |] |] | [[p | p |] | [p | p |] |] |];
    try reflexivity; exfalso; apply Hn; lia.
Qed.

(** ** The search is defined *)

Lemma performMove_legalFace (s : GameState) (move : Z) :
  1 <= move <= 6 -> legalFace (performMove s move).
Proof. intros Hm. exact Hm. Qed.

Lemma successors_legalFace (s : GameState) :
  legalFace s ->
  exists successors, getPossibleStates s = Some successors /\
                     length successors = 4%nat /\
                     Forall legalFace successors.
Proof.
  intros Hf. destruct (successors_moves s Hf) as (moves & -> & Hlen & _ & Hall & _).
  eexists. split; [reflexivity |]. split; [now rewrite List.length_map |].
  rewrite List.Forall_forall in *. intros g Hg.
  apply List.in_map_iff in Hg as (mv & <- & Hmv).
  apply performMove_legalFace, (Hall mv Hmv).
Qed.

Lemma childLoop_defined search depth (gameStates : list GameState) :
  (forall g alpha beta m, In g gameStates -> is_Some (search g alpha beta m)) ->
  forall alpha beta max m,
    is_Some (childLoop search depth gameStates alpha beta max m).
Proof.
  induction gameStates as [| g rest IH]; intros Hs alpha beta max m.
  - cbn. eauto.
  - cbn [childLoop].
    destruct (probe (transpositionTable m) depth (hash g) alpha beta max)
      as [v | a b]; [eauto |].
    destruct (Hs g a b m (or_introl eq_refl)) as [[r m1] ->].
    apply IH. intros g' a' b' m' Hin. apply Hs. right. exact Hin.
Qed.

Lemma miniMax_legal_defined (depth : nat) :
  forall s alpha beta m,
    legalFace s -> is_Some (miniMax depth s alpha beta m).
Proof.
  induction depth as [| depth' IH]; intros s alpha beta m Hf.
  - cbn. eauto.
  - cbn [miniMax]. destruct (total s <=? 0); [cbn; eauto |].
    destruct (successors_legalFace s Hf) as (gs & -> & _ & Hall).
    destruct (childLoop_defined (miniMax depth') (Z.of_nat (S depth')) gs)
      with (alpha := alpha) (beta := beta) (max := -1) (m := m)
      as [[v m1] ->].
    + intros g a b m0 Hin. apply IH.
      rewrite List.Forall_forall in Hall. now apply Hall.
    + cbn. eauto.
Qed.

(** [miniMax] fails to deliver a value in one situation only: it has depth
    left and a positive total, and the face shown is none of 1..6, so that
    no successor is generated.  On a legal face it returns a value for every
    depth, window, player, winner and table. *)
Theorem miniMax_defined (depth : nat) (s : GameState) (alpha beta : Z) (m : Mem) :
  miniMax depth s alpha beta m = None <->
  (depth <> 0%nat /\ 0 < total s /\ ~ legalFace s).
Proof.
  split.
  - intros Hnone. destruct depth as [| depth']; [discriminate |].
    cbn [miniMax] in Hnone.
    destruct (Z.leb_spec (total s) 0) as [Hle | Hpos]; [discriminate |].
    split; [discriminate |]. split; [exact Hpos |].
    intros Hf.
    destruct (miniMax_legal_defined (S depth') s alpha beta m Hf) as [x Hx].
    cbn [miniMax] in Hx.
    replace (total s <=? 0) with false in Hx by (symmetry; apply Z.leb_gt; lia).
    congruence.
  - intros (Hd & Hpos & Hn). destruct depth as [| depth']; [congruence |].
    cbn [miniMax].
    replace (total s <=? 0) with false by (symmetry; apply Z.leb_gt; lia).
    now rewrite (getPossibleStates_illegal s Hn).
Qed.

Lemma miniMax_defined_witness :
  miniMax 3 (mkGameState 0 10 1 0) (-128) 127 freshMem = None.
Proof.
  apply (miniMax_defined 3 (mkGameState 0 10 1 0) (-128) 127 freshMem).
  split; [discriminate |]. split; [cbn; lia |].
  unfold legalFace. cbn. lia.
Defined.

(** ** The search never erases a record *)

Lemma recordsKept_refl (tt : gmap Z Z) : recordsKept tt tt.
Proof. intros h Hh. exact Hh. Qed.

Lemma recordsKept_trans (t1 t2 t3 : gmap Z Z) :
  recordsKept t1 t2 -> recordsKept t2 t3 -> recordsKept t1 t3.
Proof. intros H12 H23 h Hh. apply H23, H12, Hh. Qed.

Lemma recordsKept_store (m : Mem) (h depth val type : Z) :
  1 <= depth <= 255 -> 0 <= type <= 3 ->
  recordsKept (transpositionTable m)
              (transpositionTable (store m h depth val type)).
Proof.
  intros HD HT k Hk.
  destruct (Z.eq_dec k h) as [-> | Hne].
  - destruct (getters_of_word _ h depth val type
                ltac:(unfold uint8_range; lia) HT
                (slot_store m h depth val type)) as (-> & _).
    lia.
  - unfold getDepth in *. now rewrite slot_store_ne.
Qed.

Lemma recordsKept_record (m : Mem) (h depth val alpha beta : Z) :
  1 <= depth <= 255 ->
  recordsKept (transpositionTable m)
              (transpositionTable (record m h depth val alpha beta)).
Proof.
  intros HD. unfold record.
  destruct (val <=? alpha); [| destruct (beta <=? val)];
    apply recordsKept_store;
    unfold NODE_TYPE_UPPER, NODE_TYPE_LOWER, NODE_TYPE_EXACT; lia.
Qed.

Lemma childLoop_keeps_records search depth (gameStates : list GameState) :
  1 <= depth <= 255 ->
  (forall g alpha beta m r m',
     search g alpha beta m = Some (r, m') ->
     recordsKept (transpositionTable m) (transpositionTable m')) ->
  forall alpha beta max m v m',
    childLoop search depth gameStates alpha beta max m = Some (v, m') ->
    recordsKept (transpositionTable m) (transpositionTable m').
Proof.
  intros HD Hs.
  induction gameStates as [| g rest IH]; intros alpha beta max m v m' Hrun.
  - cbn in Hrun. injection Hrun as _ <-. apply recordsKept_refl.
  - cbn [childLoop] in Hrun.
    destruct (probe (transpositionTable m) depth (hash g) alpha beta max)
      as [v0 | a b].
    + injection Hrun as _ <-. apply recordsKept_refl.
    + destruct (search g a b m) as [[r m1] |] eqn:Hsearch; [| discriminate].
      eapply recordsKept_trans; [exact (Hs _ _ _ _ _ _ Hsearch) |].
      eapply recordsKept_trans; [| exact (IH _ _ _ _ _ _ Hrun)].
      now apply recordsKept_record.
Qed.

(** A search overwrites records but erases none: a slot whose depth field
    was positive before the search has a positive depth field after it,
    for every window and every table. *)
Theorem miniMax_keeps_records (depth : nat) :
  (depth <= 255)%nat ->
  forall s alpha beta m v m',
    miniMax depth s alpha beta m = Some (v, m') ->
    recordsKept (transpositionTable m) (transpositionTable m').
Proof.
  induction depth as [| depth' IH]; intros Hd s alpha beta m v m' Hrun.
  - cbn in Hrun. injection Hrun as _ <-. apply recordsKept_refl.
  - cbn [miniMax] in Hrun. destruct (total s <=? 0).
    + injection Hrun as _ <-. apply recordsKept_refl.
    + destruct (getPossibleStates s) as [gs |]; [| discriminate].
      destruct (childLoop (miniMax depth') (Z.of_nat (S depth')) gs
                          alpha beta (-1) m) as [[v1 m1] |] eqn:Hloop;
        [| discriminate].
      injection Hrun as _ <-. cbn [transpositionTable].
      eapply (childLoop_keeps_records (miniMax depth') (Z.of_nat (S depth')) gs);
        [lia | | exact Hloop].
      intros g a b m0 r m0' Hsub. eapply IH; [lia | exact Hsub].
Qed.

Lemma miniMax_keeps_records_witness :
  let m := store freshMem (hash (performMove (createGameState 1 (-1) 9) 5))
                 1 0 NODE_TYPE_EXACT in
  exists v m',
    miniMax 3 (createGameState 1 (-1) 9) (-128) 127 m = Some (v, m') /\
    recordsKept (transpositionTable m) (transpositionTable m').
Proof.
  intros m.
  destruct (miniMax 3 (createGameState 1 (-1) 9) (-128) 127 m)
    as [[v m'] |] eqn:Hrun; [| vm_compute in Hrun; discriminate].
  exists v, m'. split; [reflexivity |].
  apply (miniMax_keeps_records 3 ltac:(lia) _ _ _ _ _ _ Hrun).
Defined.

(** ** More on the move selector *)

Lemma successorScores_defined (nextPossible : list GameState) :
  Forall legalFace nextPossible ->
  forall m, exists scores m',
    successorScores nextPossible m = Some (scores, m') /\
    length scores = length nextPossible.
Proof.
  induction 1 as [| g rest Hg _ IH]; intros m.
  - exists [], m. split; reflexivity.
  - cbn [successorScores].
    destruct (miniMax_legal_defined 100 g (-128) 127 m Hg) as [[r m1] ->].
    destruct (IH m1) as (scores & m2 & -> & Hlen).
    eexists _, _. split; [reflexivity |]. cbn [length]. now rewrite Hlen.
Qed.

(** Whatever the table holds and whatever the scores are, [makeBestMove]
    on a legal face returns one of the four successors: the index 0xFF that
    [maxI] starts with is never used to read the array. *)
Theorem makeBestMove_in_successors (s : GameState) (m : Mem) :
  legalFace s ->
  exists successors chosen m',
    getPossibleStates s = Some successors /\
    makeBestMove s m = Some (chosen, m') /\
    In chosen successors.
Proof.
  intros Hf.
  destruct (successors_legalFace s Hf) as (gs & Hgs & Hlen & Hall).
  destruct (successorScores_defined gs Hall m) as (scores & m' & Hs & Hslen).
  pose proof (runningBest_last scores 0 (-2) 255) as Hrb.
  unfold makeBestMove. rewrite Hgs, bestLoop_runningBest, Hs.
  destruct (runningBest scores 0 (-2) 255) as [best bestI].
  destruct Hrb as (_ & _ & Hcase).
  assert (Hpick : forall k : nat, (k < length gs)%nat ->
            exists chosen,
              option_map (fun s0 => (s0, m')) (gs !! k) = Some (chosen, m') /\
              In chosen gs).
  { intros k Hk. destruct (lookup_lt_is_Some_2 gs k Hk) as [g Hg].
    exists g. rewrite Hg. split; [reflexivity |].
    apply list_elem_of_In. eapply list_elem_of_lookup_2. exact Hg. }
  destruct (Z.eqb_spec best (-2)) as [Heq | Hne].
  - destruct (Hpick 0%nat ltac:(lia)) as (g & Hg & Hin). exists gs, g, m'. auto.
  - destruct Hcase as [(Hbest & _ & _) | (k & -> & Hk & _)]; [contradiction |].
    replace (Z.to_nat (0 + Z.of_nat k)) with k by lia.
    destruct (Hpick k) as (g & Hg & Hin).
    + rewrite <- Hslen. eapply lookup_lt_Some. exact Hk.
    + exists gs, g, m'. auto.
Qed.

Lemma makeBestMove_in_successors_witness :
  exists successors chosen m',
    getPossibleStates (mkGameState 6 40 (-1) 0) = Some successors /\
    makeBestMove (mkGameState 6 40 (-1) 0)
                 (store freshMem 77 3 5 NODE_TYPE_LOWER)
      = Some (chosen, m') /\
    In chosen successors.
Proof.
  apply (makeBestMove_in_successors (mkGameState 6 40 (-1) 0)
           (store freshMem 77 3 5 NODE_TYPE_LOWER)).
  unfold legalFace. cbn. lia.
Defined.

(** ** The configurations a search visits *)

Lemma successor_settled (s : GameState) (move : Z) :
  isPlayer (activePlayer s) -> 0 < total s <= 127 -> 1 <= move <= 6 ->
  settled (performMove s move) /\
  total (performMove s move) = total s - move /\
  lastMove (performMove s move) = move /\
  activePlayer (performMove s move) = - activePlayer s.
Proof.
  intros Hp Ht Hm. rewrite (performMove_applyMove s move Hp Ht Hm).
  destruct (applyMove_settled s move Hp Ht Hm) as [Hset _].
  split; [exact Hset |]. repeat split.
Qed.

(** Below a starting configuration with a legal face, a player to move and
    a positive total, every configuration the search visits keeps the
    invariant of the data model (the winner field is the player to move
    once the total is at most 0, and 0 before), no total wraps, and the
    totals go down to -5 at the lowest. *)
Theorem explored_invariant (start s : GameState) :
  legalFace start -> isPlayer (activePlayer start) ->
  0 < total start <= 127 ->
  explored start s ->
  s = start \/ (settled s /\ -5 <= total s < total start).
Proof.
  intros Hf Hp Ht Hex.
  induction Hex as [| s next gs Hex IH Hpos Hgs Hin]; [left; reflexivity |].
  right.
  assert (Hs : legalFace s /\ isPlayer (activePlayer s) /\
               0 < total s <= total start).
  { destruct IH as [-> | ((Hfs & _ & Hps & _) & Hts)].
    - split; [exact Hf |]. split; [exact Hp |]. lia.
    - split; [exact Hfs |]. split; [exact Hps |]. lia. }
  destruct Hs as (Hfs & Hps & Hts).
  destruct (successors_moves s Hfs) as (moves & Hgs' & _ & _ & Hall & _).
  rewrite Hgs in Hgs'. injection Hgs' as ->.
  apply List.in_map_iff in Hin as (mv & <- & Hmv).
  rewrite List.Forall_forall in Hall. destruct (Hall mv Hmv) as (Hr & _).
  destruct (successor_settled s mv Hps ltac:(lia) Hr) as (Hset & -> & _).
  split; [exact Hset | lia].
Qed.

Lemma explored_invariant_witness :
  let start := createGameState 1 (-1) 4 in
  let s := performMove (performMove start 3) 2 in
  s = start \/ (settled s /\ -5 <= total s < total start).
Proof.
  cbv zeta.
  apply (explored_invariant (createGameState 1 (-1) 4)
           (performMove (performMove (createGameState 1 (-1) 4) 3) 2)).
  - unfold legalFace. cbn. lia.
  - right. reflexivity.
  - cbn. lia.
  - eapply explored_step with (s := performMove (createGameState 1 (-1) 4) 3).
    + eapply explored_step with (s := createGameState 1 (-1) 4).
      * apply explored_start.
      * cbn. lia.
      * reflexivity.
      * cbn [In]. auto.
    + vm_compute. reflexivity.
    + reflexivity.
    + cbn [In]. auto.
Defined.

(** ** Full-depth searches on a table with history *)

(** The game value of a configuration still in play is the best of the
    negated values of its successors, and some successor attains it. *)
Lemma outcome_step (s : GameState) :
  legalFace s -> isPlayer (activePlayer s) -> 0 < total s <= 127 ->
  isPlayer (outcome s) /\
  (forall move, 1 <= move <= 6 -> move <> lastMove s ->
                move + lastMove s <> 7 ->
                - outcome (performMove s move) <= outcome s) /\
  (exists move, 1 <= move <= 6 /\ move <> lastMove s /\
                move + lastMove s <> 7 /\
                - outcome (performMove s move) = outcome s).
Proof.
  intros Hf Hp Ht.
  assert (Hchild : forall mv, 1 <= mv <= 6 ->
            Reference.applyMove s mv = performMove s mv /\
            Reference.fullMinimax (Z.to_nat (total s - 1)) (performMove s mv)
            = outcome (performMove s mv) /\
            isPlayer (outcome (performMove s mv))).
  { intros mv Hmv.
    destruct (successor_settled s mv Hp Ht Hmv) as (Hset & Htot & _).
    split; [symmetry; now apply performMove_applyMove |].
    apply fullMinimax_outcome; [exact Hset | lia]. }
  assert (Hstep : outcome s
            = Reference.maximum
                (List.map (fun c => - Reference.fullMinimax (Z.to_nat (total s - 1)) c)
                          (Reference.legalSuccessors s))).
  { unfold outcome.
    replace (Z.to_nat (total s)) with (S (Z.to_nat (total s - 1))) by lia.
    cbn [Reference.fullMinimax]. unfold Reference.terminal.
    replace (total s <=? 0) with false by (symmetry; apply Z.leb_gt; lia).
    reflexivity. }
  rewrite Hstep. clear Hstep.
  unfold Reference.legalSuccessors, Reference.maximum, Reference.MIN_SCORE.
  face_cases s Hf; rewrite Hface;
    match goal with
    | |- context [Reference.legalFaces ?f] =>
        let faces := eval vm_compute in (Reference.legalFaces f) in
        change (Reference.legalFaces f) with faces
    end;
    cbn [List.map List.fold_right];
    repeat match goal with
    | |- context [Reference.applyMove s ?mv] =>
        let H1 := fresh "Heq" in let H2 := fresh "Hval" in
        let H3 := fresh "Hpl" in
        destruct (Hchild mv ltac:(lia)) as (H1 & H2 & H3);
        rewrite H1, H2; clear H1 H2
    end;
    (split; [unfold isPlayer in *; lia |]; split;
     [ intros move Hr Hne Hsum;
       assert (Hm : move = 1 \/ move = 2 \/ move = 3 \/
                    move = 4 \/ move = 5 \/ move = 6) by lia;
       destruct Hm as [-> | [-> | [-> | [-> | [-> | ->]]]]];
       try lia
     | unfold isPlayer in *;
       repeat match goal with
       | H : _ = 1 \/ _ = -1 |- _ => destruct H as [H | H]
       end;
       first [ exists 1; lia | exists 2; lia | exists 3; lia
             | exists 4; lia | exists 5; lia | exists 6; lia ] ]).
Qed.

Lemma createGameState_settled (startMove startPlayer startTotal : Z) :
  1 <= startMove <= 6 -> isPlayer startPlayer -> 0 < startTotal <= 127 ->
  settled (createGameState startMove startPlayer startTotal).
Proof.
  intros Hm Hp Ht. unfold settled, legalFace, createGameState, int8_range.
  cbn [lastMove total activePlayer winner].
  replace (startTotal <=? 0) with false by (symmetry; apply Z.leb_gt; lia).
  repeat split; (assumption || lia).
Qed.

(** On a sound table a full-depth search of a settled configuration
    returns its game value. *)
Lemma miniMax_outcome (depth : nat) (s : GameState) (m : Mem) :
  (depth <= 255)%nat -> settled s -> total s <= Z.of_nat depth ->
  soundTable (transpositionTable m) ->
  exists m',
    miniMax depth s (-128) 127 m = Some (outcome s, m') /\
    soundTable (transpositionTable m').
Proof.
  intros Hd Hs Ht Hm.
  destruct (fullMinimax_outcome depth s Hs Ht) as [<- _].
  apply miniMax_full; try assumption.
  - now apply settled_playable.
  - right. reflexivity.
Qed.

(** At full depth neither the history of the table nor the depth matters:
    after any full-depth search, started from a sound table (the
    zero-initialised one is sound), a second full-depth search returns what
    it returns from the zero-initialised table, which is the reference
    value and the same for every sufficient depth. *)
Theorem search_unaffected_by_history
    (m0 : Mem) (d1 d2 d3 : nat) (s1 s2 : GameState) :
  soundTable (transpositionTable m0) ->
  (d1 <= 255)%nat -> playable s1 -> total s1 <= Z.of_nat d1 ->
  (d2 <= 255)%nat -> settled s2 -> total s2 <= Z.of_nat d2 ->
  (d3 <= 255)%nat -> total s2 <= Z.of_nat d3 ->
  exists v1 m1,
    miniMax d1 s1 (-128) 127 m0 = Some (v1, m1) /\
    option_map fst (miniMax d2 s2 (-128) 127 m1)
      = option_map fst (miniMax d2 s2 (-128) 127 freshMem) /\
    option_map fst (miniMax d2 s2 (-128) 127 m1)
      = option_map fst (miniMax d3 s2 (-128) 127 freshMem) /\
    option_map fst (miniMax d2 s2 (-128) 127 m1)
      = Some (Reference.fullMinimax d2 s2).
Proof.
  intros Hm0 Hd1 Hs1 Ht1 Hd2 Hs2 Ht2 Hd3 Ht3.
  destruct (miniMax_full d1 Hd1 s1 127 m0 Hs1 Ht1
              ltac:(right; reflexivity) Hm0) as (m1 & Hr1 & Hm1).
  exists (Reference.fullMinimax d1 s1), m1. split; [exact Hr1 |].
  destruct (miniMax_outcome d2 s2 m1 Hd2 Hs2 Ht2 Hm1) as (m2 & -> & _).
  destruct (miniMax_outcome d2 s2 freshMem Hd2 Hs2 Ht2 soundTable_fresh)
    as (m3 & -> & _).
  destruct (miniMax_outcome d3 s2 freshMem Hd3 Hs2 Ht3 soundTable_fresh)
    as (m4 & -> & _).
  destruct (fullMinimax_outcome d2 s2 Hs2 Ht2) as [-> _].
  repeat split.
Qed.

Lemma search_unaffected_by_history_witness :
  exists v1 m1,
    miniMax 100 (createGameState 1 (-1) 66) (-128) 127 freshMem
      = Some (v1, m1) /\
    option_map fst (miniMax 63 (createGameState 3 1 40) (-128) 127 m1)
      = option_map fst (miniMax 100 (createGameState 3 1 40) (-128) 127 freshMem).
Proof.
  destruct (search_unaffected_by_history freshMem 100 63 100
              (createGameState 1 (-1) 66) (createGameState 3 1 40))
    as (v1 & m1 & Hr & _ & Heq & _).
  - intros c _. left. reflexivity.
  - lia.
  - unfold playable, legalFace, int8_range, isPlayer, outcomeScore. cbn. lia.
  - cbn. lia.
  - lia.
  - unfold settled, legalFace, int8_range, isPlayer. cbn. lia.
  - cbn. lia.
  - lia.
  - cbn. lia.
  - exists v1, m1. split; [exact Hr | exact Heq].
Defined.

(** ** The move selector plays perfectly *)

Lemma successorScores_full (nextPossible : list GameState) :
  Forall (fun g => settled g /\ total g <= 100) nextPossible ->
  forall m, soundTable (transpositionTable m) ->
    exists m',
      successorScores nextPossible m
      = Some (List.map (fun g => - outcome g) nextPossible, m') /\
      soundTable (transpositionTable m').
Proof.
  induction 1 as [| g rest [Hg Hgt] _ IH]; intros m Hm.
  - exists m. split; [reflexivity | exact Hm].
  - cbn [successorScores List.map].
    destruct (miniMax_outcome 100 g m ltac:(lia) Hg ltac:(lia) Hm)
      as (m1 & -> & Hm1).
    destruct (IH m1 Hm1) as (m2 & -> & Hm2).
    destruct (fullMinimax_outcome (Z.to_nat (total g)) g Hg ltac:(lia))
      as [_ Hog].
    rewrite (to_int8_id (- outcome g))
      by (unfold int8_range, isPlayer in *; lia).
    exists m2. split; [reflexivity | exact Hm2].
Qed.

(** On a sound table, from a configuration still in play with a total of at
    most 100, [makeBestMove] makes a legal move that keeps the mover's game
    value: the successor is worth to the opponent the negation of what the
    configuration is worth to the mover. *)
Lemma makeBestMove_sound (s : GameState) (m : Mem) :
  legalFace s -> isPlayer (activePlayer s) -> 0 < total s <= 100 ->
  soundTable (transpositionTable m) ->
  exists move m',
    makeBestMove s m = Some (performMove s move, m') /\
    1 <= move <= 6 /\ move <> lastMove s /\ move + lastMove s <> 7 /\
    outcome (performMove s move) = - outcome s /\
    soundTable (transpositionTable m').
Proof.
  intros Hf Hp Ht Hm.
  destruct (successors_moves s Hf) as (moves & Hgs & Hlen & _ & Hall & Hcomplete).
  destruct (outcome_step s Hf Hp ltac:(lia))
    as (Hos & Hle & (good & Hgr & Hgne & Hgs7 & Hgv)).
  rewrite List.Forall_forall in Hall.
  assert (Hset : Forall (fun g => settled g /\ total g <= 100)
                        (List.map (performMove s) moves)).
  { rewrite List.Forall_forall. intros g Hg.
    apply List.in_map_iff in Hg as (mv & <- & Hmv).
    destruct (Hall mv Hmv) as (Hr & _).
    destruct (successor_settled s mv Hp ltac:(lia) Hr) as (Hs & -> & _).
    split; [exact Hs | lia]. }
  destruct (successorScores_full _ Hset m Hm) as (m' & Hscores & Hm').
  rewrite List.map_map in Hscores.
  set (score := fun mv => - outcome (performMove s mv)) in *.
  pose proof (runningBest_last (List.map score moves) 0 (-2) 255) as Hrb.
  unfold makeBestMove. rewrite Hgs, bestLoop_runningBest, Hscores.
  destruct (runningBest (List.map score moves) 0 (-2) 255) as [top topI].
  destruct Hrb as (_ & Hbound & Hcase).
  assert (Hgood : In (score good) (List.map score moves))
    by (apply List.in_map, Hcomplete; assumption).
  rewrite List.Forall_forall in Hbound.
  pose proof (Hbound _ Hgood) as Hge. unfold score at 1 in Hge.
  destruct Hcase as [(_ & _ & Hlt) | (k & -> & Hk & _)].
  - exfalso. rewrite List.Forall_forall in Hlt.
    pose proof (Hlt _ Hgood) as Hbad. unfold score in Hbad.
    unfold isPlayer in Hos. lia.
  - change (List.map score moves) with (score <$> moves) in Hk.
    rewrite list_lookup_fmap in Hk.
    destruct (moves !! k) as [mv |] eqn:Hmv; [| discriminate].
    cbn in Hk. injection Hk as Htop.
    assert (Hmvin : In mv moves)
      by (apply list_elem_of_In; eapply list_elem_of_lookup_2; exact Hmv).
    destruct (Hall mv Hmvin) as (Hr & Hne & Hsum).
    pose proof (Hle mv Hr Hne Hsum) as Hup.
    assert (Hval : - outcome (performMove s mv) = outcome s)
      by (unfold score in Htop; lia).
    replace (top =? -2) with false
      by (symmetry; apply Z.eqb_neq; unfold score in Htop;
          unfold isPlayer in Hos; lia).
    replace (Z.to_nat (0 + Z.of_nat k)) with k by lia.
    change (List.map (performMove s) moves) with (performMove s <$> moves).
    rewrite list_lookup_fmap, Hmv. cbn.
    exists mv, m'. repeat split; try assumption; try lia.
Qed.

(** On a table left by full-depth searches, [makeBestMove] moves
    perfectly: from a configuration still in play it returns a legal
    successor whose game value, for the opponent, is the negation of the
    mover's game value, so a mover who can win keeps a won game and no other
    legal move would have done better. *)
Theorem makeBestMove_optimal (s : GameState) (m : Mem) :
  legalFace s -> isPlayer (activePlayer s) -> 0 < total s <= 100 ->
  soundTable (transpositionTable m) ->
  exists move m',
    makeBestMove s m = Some (performMove s move, m') /\
    (1 <= move <= 6 /\ move <> lastMove s /\ move + lastMove s <> 7) /\
    outcome (performMove s move) = - outcome s /\
    (forall other, 1 <= other <= 6 -> other <> lastMove s ->
                   other + lastMove s <> 7 ->
                   - outcome (performMove s other)
                   <= - outcome (performMove s move)) /\
    soundTable (transpositionTable m').
Proof.
  intros Hf Hp Ht Hm.
  destruct (makeBestMove_sound s m Hf Hp Ht Hm)
    as (move & m' & Hrun & Hr & Hne & Hsum & Hval & Hm').
  destruct (outcome_step s Hf Hp ltac:(lia)) as (_ & Hle & _).
  exists move, m'. split; [exact Hrun |]. split; [auto |].
  split; [exact Hval |]. split; [| exact Hm'].
  intros other Hor Hone Hosum. rewrite Hval.
  pose proof (Hle other Hor Hone Hosum). lia.
Qed.

Lemma makeBestMove_optimal_witness :
  exists move m',
    makeBestMove (createGameState 1 (-1) 7) freshMem
      = Some (performMove (createGameState 1 (-1) 7) move, m') /\
    outcome (performMove (createGameState 1 (-1) 7) move)
      = - outcome (createGameState 1 (-1) 7).
Proof.
  destruct (makeBestMove_optimal (createGameState 1 (-1) 7) freshMem)
    as (move & m' & Hrun & _ & Hval & _).
  - unfold legalFace. cbn. lia.
  - right. reflexivity.
  - cbn. lia.
  - intros c _. left. reflexivity.
  - exists move, m'. split; assumption.
Defined.

(** ** The driver: a game ends as announced *)

Lemma settled_winner (s : GameState) :
  settled s ->
  (0 < total s /\ winner s = 0) \/
  (total s <= 0 /\ winner s = activePlayer s /\ outcome s = 1).
Proof.
  intros (Hf & Ht & Hp & Hw).
  destruct (Z.leb_spec (total s) 0) as [Hle | Hpos]; [right | left; auto].
  split; [exact Hle |]. split; [exact Hw |].
  unfold outcome. rewrite fullMinimax_terminal by assumption.
  rewrite Hw. destruct Hp as [-> | ->]; reflexivity.
Qed.

(** The game loop on a sound table: with more fuel than the total, it ends
    at a terminal configuration whose winner is the player the game value
    of the starting configuration names. *)
Lemma gameLoop_sound (fuel : nat) :
  forall s m,
    settled s -> total s <= 66 ->
    (activePlayer s = 1 -> total s + lastMove s <= 66) ->
    (0 < fuel)%nat -> total s < Z.of_nat fuel ->
    soundTable (transpositionTable m) ->
    exists final m',
      gameLoop fuel s m = Some (final, m') /\
      winner final = activePlayer s * outcome s /\
      isPlayer (winner final) /\ total final <= 0 /\
      soundTable (transpositionTable m').
Proof.
  induction fuel as [| fuel' IH]; intros s m Hs Ht Hcomp Hfuel Hlt Hm; [lia |].
  cbn [gameLoop].
  pose proof Hs as (Hf & Hrange & Hp & _).
  destruct (settled_winner s Hs) as [(Hpos & ->) | (Hle & Hw & Hout)].
  - replace (0 =? 0) with true by reflexivity.
    destruct (makeBestMove_sound s m Hf Hp ltac:(lia) Hm)
      as (move & m1 & -> & Hr & Hne & Hsum & Hval & Hm1).
    destruct (successor_settled s move Hp ltac:(lia) Hr)
      as (Hnext & Hnt & Hnl & Hnp).
    assert (Hrec : forall m2, soundTable (transpositionTable m2) ->
              exists final m',
                gameLoop fuel' (performMove s move) m2 = Some (final, m') /\
                winner final = activePlayer s * outcome s /\
                isPlayer (winner final) /\ total final <= 0 /\
                soundTable (transpositionTable m')).
    { intros m2 Hm2.
      destruct (IH (performMove s move) m2 Hnext ltac:(lia) ltac:(lia)
                   ltac:(lia) ltac:(lia) Hm2)
        as (final & m' & Hrun & Hwin & Hpl & Hfin & Hm').
      exists final, m'. split; [exact Hrun |]. split; [| auto].
      rewrite Hwin, Hnp, Hval. lia. }
    destruct (Z.eqb_spec (activePlayer s) 1) as [Hone | Hnot].
    + destruct (miniMax_outcome 63 (performMove s move) m1 ltac:(lia) Hnext
                  ltac:(unfold legalFace in Hf; specialize (Hcomp Hone); lia)
                  Hm1) as (m2 & -> & Hm2).
      apply Hrec, Hm2.
    + rewrite Hnl.
      replace ((move + lastMove s =? 7) || (move =? lastMove s)) with false.
      * apply Hrec, Hm1.
      * symmetry. apply orb_false_iff. split; apply Z.eqb_neq; assumption.
  - replace (winner s =? 0) with false
      by (symmetry; apply Z.eqb_neq; rewrite Hw; destruct Hp as [-> | ->]; lia).
    exists s, m. split; [reflexivity |]. split; [rewrite Hw, Hout; lia |].
    split; [rewrite Hw; exact Hp |]. split; [exact Hle | exact Hm].
Qed.

Lemma playGame_sound
    (fuel : nat) (startTotal startMove : Z) (m : Mem) :
  1 <= startTotal <= 66 -> 1 <= startMove <= 6 ->
  startTotal < Z.of_nat fuel ->
  soundTable (transpositionTable m) ->
  exists r m0 final m',
    miniMax 100 (createGameState startMove (-1) startTotal) (-128) 127 m
      = Some (r, m0) /\
    isPlayer r /\
    playGame fuel startTotal startMove (-1) m = Some (Consistent, final, m') /\
    winner final = - r /\
    total final <= 0 /\
    soundTable (transpositionTable m').
Proof.
  intros Ht Hmv Hfuel Hm.
  assert (Hs : settled (createGameState startMove (-1) startTotal))
    by (apply createGameState_settled; [lia | right; reflexivity | lia]).
  destruct (miniMax_outcome 100 _ m ltac:(lia) Hs ltac:(cbn; lia) Hm)
    as (m0 & Hr & Hm0).
  destruct (fullMinimax_outcome 100 _ Hs ltac:(cbn; lia)) as [_ Hpl].
  destruct (gameLoop_sound fuel _ m0 Hs ltac:(cbn; lia)
              ltac:(cbn; lia) ltac:(lia) ltac:(cbn; lia) Hm0)
    as (final & m' & Hrun & Hwin & Hwpl & Hterm & Hm').
  cbn [createGameState activePlayer] in Hwin.
  set (start := createGameState startMove (-1) startTotal) in *.
  exists (outcome start), m0, final, m'.
  split; [exact Hr |]. split; [exact Hpl |].
  split; [| split; [lia | split; [exact Hterm | exact Hm']]].
  unfold playGame. fold start. rewrite Hr, Hrun.
  replace (-1 =? -1) with true by reflexivity.
  rewrite (to_int8_id (- outcome start))
    by (unfold int8_range, isPlayer in Hpl |- *; lia).
  unfold isPlayer in Hpl, Hwpl.
  destruct Hwpl as [Hw1 | Hw1]; rewrite Hw1.
  - replace (1 =? 1) with true by reflexivity.
    replace (- outcome start <? 1) with false
      by (symmetry; apply Z.ltb_ge; lia).
    reflexivity.
  - replace (-1 =? 1) with false by reflexivity.
    replace (-1 =? -1) with true by reflexivity.
    replace (-1 <? - outcome start) with false
      by (symmetry; apply Z.ltb_ge; lia).
    reflexivity.
Qed.

(** One game of [main], started on a table left by earlier games (a sound
    one; the zero-initialised table is sound): with the human side to move
    first, a total of 1..66 and enough fuel, the first evaluation is 1 or -1,
    the game loop ends, the winner is the player that evaluation (negated as
    [main] negates it) announced, and the "huh?" branch is not taken. *)
Theorem playGame_consistent
    (fuel : nat) (startTotal startMove : Z) (m : Mem) :
  1 <= startTotal <= 66 -> 1 <= startMove <= 6 ->
  startTotal < Z.of_nat fuel ->
  soundTable (transpositionTable m) ->
  exists r m0 final m',
    miniMax 100 (createGameState startMove (-1) startTotal) (-128) 127 m
      = Some (r, m0) /\
    isPlayer r /\
    playGame fuel startTotal startMove (-1) m = Some (Consistent, final, m') /\
    winner final = - r /\
    total final <= 0 /\
    soundTable (transpositionTable m').
Proof. apply playGame_sound. Qed.

Lemma playGame_consistent_witness :
  exists final m',
    playGame 67 66 1 (-1) freshMem = Some (Consistent, final, m') /\
    total final <= 0.
Proof.
  destruct (playGame_consistent 67 66 1 freshMem)
    as (r & m0 & final & m' & _ & _ & Hrun & _ & Hterm & _).
  - lia.
  - lia.
  - lia.
  - intros c _. left. reflexivity.
  - exists final, m'. split; assumption.
Defined.

Lemma playGames_consistent (fuel : nat) (starts : list (Z * Z * Z)) :
  Forall (fun '(startTotal, startMove, startPlayer) =>
            1 <= startTotal <= 66 /\ 1 <= startMove <= 6 /\
            startPlayer = -1 /\ startTotal < Z.of_nat fuel) starts ->
  forall m, soundTable (transpositionTable m) ->
    exists m', playGames fuel starts m = Some (Consistent, m') /\
               soundTable (transpositionTable m').
Proof.
  induction 1 as [| [[t mv] p] rest (Ht & Hmv & -> & Hfuel) _ IH]; intros m Hm.
  - exists m. split; [reflexivity | exact Hm].
  - cbn [playGames].
    destruct (playGame_sound fuel t mv m Ht Hmv Hfuel Hm)
      as (r & m0 & final & m1 & _ & _ & -> & _ & _ & Hm1).
    apply IH, Hm1.
Qed.

Lemma startingPoints_range :
  Forall (fun '(startTotal, startMove, startPlayer) =>
            11 <= startTotal <= 66 /\ 1 <= startMove <= 6 /\
            startPlayer = -1) startingPoints.
Proof.
  rewrite List.Forall_forall. intros [[t mv] p] Hin.
  unfold startingPoints in Hin.
  apply List.in_flat_map in Hin as (t' & Ht' & Hin).
  apply List.in_flat_map in Hin as (mv' & Hmv' & Hin).
  destruct Hin as [Heq | []]. injection Heq as <- <- <-.
  apply List.in_map_iff in Ht' as (k & <- & Hk).
  apply List.in_seq in Hk. cbn [In] in Hmv'. lia.
Qed.

(** [main] runs all its 336 games to the end and never reaches "huh?": with
    fuel for 67 iterations of the game loop in each game, every game ends
    and its winner is the one evaluated before the first move, although the
    table is carried over from game to game. *)
Theorem main_never_huh (fuel : nat) :
  (67 <= fuel)%nat ->
  exists m', main fuel = Some (Consistent, m') /\
             length startingPoints = 336%nat.
Proof.
  intros Hfuel. unfold main.
  destruct (playGames_consistent fuel startingPoints) with (m := freshMem)
    as (m' & Hrun & _).
  - eapply List.Forall_impl; [| exact startingPoints_range].
    intros [[t mv] p] (Ht & Hmv & Hp). repeat split; lia.
  - exact soundTable_fresh.
  - exists m'. split; [exact Hrun | reflexivity].
Qed.

Lemma main_never_huh_witness :
  exists m', main 67 = Some (Consistent, m').
Proof.
  destruct (main_never_huh 67) as (m' & Hrun & _); [lia |].
  exists m'. exact Hrun.
Defined.

(** ** The die *)

(** For every value [rand()] can return (none is negative) the die shows a
    face 1..6, and each of the six faces is shown for some value. *)
Theorem rollDice_faces (r : Z) :
  0 <= r ->
  1 <= rollDice r <= 6 /\
  (forall face, 1 <= face <= 6 -> exists r', 0 <= r' /\ rollDice r' = face).
Proof.
  intros Hr. split.
  - unfold rollDice. pose proof (Z.rem_bound_pos r 6 Hr ltac:(lia)) as Hb.
    rewrite to_uint8_id by (unfold uint8_range; lia). lia.
  - intros face Hf. exists (face - 1). split; [lia |].
    unfold rollDice.
    rewrite (Z.rem_small (face - 1) 6) by lia.
    rewrite to_uint8_id by (unfold uint8_range; lia). lia.
Qed.

Lemma rollDice_faces_witness : 1 <= rollDice 32767 <= 6.
Proof.
  destruct (rollDice_faces 32767) as [H _]; [lia | exact H].
Defined.
